(** * QuickTips: extraction of betting tickets and their evaluation

    A shallow embedding of [quicktips.py] (the table extractor) and of
    [evaluate_quicktips.py] (the fuzzy evaluator), with the properties
    their specification states.

    - [Py]             the Python built-ins the two scripts call
    - [Quicktips]      quicktips.py
    - [Evaluate]       evaluate_quicktips.py
    - [QuicktipsFacts] what is proved of the extractor
    - [EvaluateFacts]  what is proved of the evaluator
    - [QuicktipsMore]  more of the extractor: cells, labels, printing
    - [EvaluateMore]   more of the evaluator: dates, ties, the two sides *)

From Stdlib Require Import ZArith NArith QArith Qround Lia.
From Stdlib Require Import Floats.SpecFloat.
From Stdlib Require Import Strings.String Strings.Ascii.
From stdpp Require Import base decidable option numbers list sets gmap.

Close Scope Q_scope.
Local Open Scope Z_scope.

(* ===================================================================== *)
(** * Python built-ins                                                     *)
(* ===================================================================== *)

Module Py.

(** A Python [str] is a sequence of Unicode code points. *)
Definition char := N.
Bind Scope N_scope with char.
Definition pystr := list char.

(** [ord "a"] is the code point of an ASCII character. *)
Definition ord (a : ascii) : char := N_of_ascii a.
Arguments ord _%_char.

(** String literals of this development are written in UTF-8 and decoded
    to code points (the en dash U+2013 takes three bytes). *)
Fixpoint utf8_decode (bs : list N) : pystr :=
  match bs with
  | [] => []
  | b0 :: r0 =>
    if (b0 <? 128)%N then b0 :: utf8_decode r0
    else if (b0 <? 224)%N then
      match r0 with
      | b1 :: r1 => ((b0 mod 32) * 64 + b1 mod 64)%N :: utf8_decode r1
      | _ => []
      end
    else if (b0 <? 240)%N then
      match r0 with
      | b1 :: b2 :: r2 =>
          ((b0 mod 16) * 4096 + (b1 mod 64) * 64 + b2 mod 64)%N :: utf8_decode r2
      | _ => []
      end
    else
      match r0 with
      | b1 :: b2 :: b3 :: r3 =>
          ((b0 mod 8) * 262144 + (b1 mod 64) * 4096 + (b2 mod 64) * 64 + b3 mod 64)%N
            :: utf8_decode r3
      | _ => []
      end
  end.

Definition py (s : string) : pystr :=
  utf8_decode (map N_of_ascii (list_ascii_of_string s)).
Arguments py _%_string.

(** What Python's Unicode database decides outside ASCII about letter
    case and decimal digits.  The database is no part of the repository,
    so it is a parameter: [lower] and [decimal] below are fixed on ASCII
    and defer to these tables elsewhere.  (No decimal digit is a
    whitespace character, so where a pattern has [\s*] in front of [\d]
    the run of whitespace is taken whole.) *)
Class Unicode := {
  (** [str.lower] of a string that holds a non-ASCII code point *)
  u_lower : pystr -> pystr;
  (** the value of a decimal digit (class [\d]) at a code point >= 128 *)
  u_decimal : char -> option Z;
}.

Definition is_ascii (c : char) : bool := (c <? 128)%N.

Definition in_range (lo hi c : char) : bool := ((lo <=? c) && (c <=? hi))%N.

Definition lower_ascii (c : char) : char :=
  if in_range (ord "A") (ord "Z") c then (c + 32)%N else c.

(** Tables that know neither letter case nor digits outside ASCII: used
    to run the model on concrete inputs. *)
Definition ascii_only : Unicode :=
  {| u_lower := map lower_ascii; u_decimal := fun _ => None |}.

Section Builtins.
Context {U : Unicode}.

(** [c.isspace()], which is also the class [\s] of [re]: TAB, LF, VT,
    FF, CR, FS, GS, RS, US and the space in ASCII, and U+0085, U+00A0,
    U+1680, U+2000..U+200A, U+2028, U+2029, U+202F, U+205F, U+3000. *)
Definition isspace (c : char) : bool :=
  in_range 9 13 c || in_range 28 31 c || (c =? 32)%N ||
  (c =? 133)%N || (c =? 160)%N || (c =? 5760)%N || in_range 8192 8202 c ||
  in_range 8232 8233 c || (c =? 8239)%N || (c =? 8287)%N || (c =? 12288)%N.

Definition decimal (c : char) : option Z :=
  if is_ascii c then
    if in_range (ord "0") (ord "9") c then Some (Z.of_N c - 48) else None
  else u_decimal c.

(** [s.lower()] *)
Definition lower (s : pystr) : pystr :=
  if forallb is_ascii s then map lower_ascii s else u_lower s.

(** [s.lstrip()], [s.rstrip()], [s.strip()] *)
Fixpoint lstrip (s : pystr) : pystr :=
  match s with
  | c :: s' => if isspace c then lstrip s' else s
  | [] => []
  end.

Definition rstrip (s : pystr) : pystr := reverse (lstrip (reverse s)).

Definition strip (s : pystr) : pystr := rstrip (lstrip s).

(** [re.sub(r"[cls]+", by, s)]: every maximal run of characters of the
    class [cls] is replaced by [by]; [in_run] says that the previous
    character belonged to a run already replaced. *)
Fixpoint sub_runs_from (cls : char -> bool) (by_ : pystr) (in_run : bool) (s : pystr)
  : pystr :=
  match s with
  | [] => []
  | c :: s' =>
    if cls c then
      if in_run then sub_runs_from cls by_ true s'
      else by_ ++ sub_runs_from cls by_ true s'
    else c :: sub_runs_from cls by_ false s'
  end.

Definition sub_runs (cls : char -> bool) (by_ s : pystr) : pystr :=
  sub_runs_from cls by_ false s.

(** [old] is a prefix of [s] *)
Fixpoint startswith (old s : pystr) : bool :=
  match old, s with
  | [], _ => true
  | o :: old', c :: s' => (o =? c)%N && startswith old' s'
  | _ :: _, [] => false
  end.

(** [old in s] *)
Fixpoint contains (old s : pystr) : bool :=
  startswith old s ||
  match s with
  | [] => false
  | _ :: s' => contains old s'
  end.

(** [s.replace(old, new)] for a non-empty [old]: occurrences are taken
    from the left and do not overlap; [skip] counts the characters of the
    occurrence in progress that are still to be passed over. *)
Fixpoint replace_from (old new : pystr) (skip : nat) (s : pystr) : pystr :=
  match s with
  | [] => []
  | c :: s' =>
    match skip with
    | S k => replace_from old new k s'
    | O =>
      if startswith old s then new ++ replace_from old new (length old - 1) s'
      else c :: replace_from old new 0 s'
    end
  end.

Definition replace (old new s : pystr) : pystr := replace_from old new 0 s.

(** [s.split(sep)] for a non-empty [sep]; [cur] is the piece in progress,
    last character first. *)
Fixpoint split_from (sep : pystr) (skip : nat) (cur : pystr) (s : pystr) : list pystr :=
  match s with
  | [] => [reverse cur]
  | c :: s' =>
    match skip with
    | S k => split_from sep k cur s'
    | O =>
      if startswith sep s then reverse cur :: split_from sep (length sep - 1) [] s'
      else split_from sep 0 (c :: cur) s'
    end
  end.

Definition split (sep s : pystr) : list pystr := split_from sep 0 [] s.

(** [exactly n] decimal digits at the start of [s]: their values and the
    rest of the string. *)
Fixpoint take_digits (n : nat) (s : pystr) : option (list Z * pystr) :=
  match n with
  | O => Some ([], s)
  | S n' =>
    match s with
    | [] => None
    | c :: s' =>
      match decimal c with
      | None => None
      | Some d =>
        match take_digits n' s' with
        | Some (ds, rest) => Some (d :: ds, rest)
        | None => None
        end
      end
    end
  end.

(** [int(digits)] *)
Definition int_of_digits (ds : list Z) : Z :=
  fold_left (fun acc d => 10 * acc + d) ds 0.

(** [max(xs, key=key)]: the first element whose key is maximal; [None]
    stands for the ValueError of an empty sequence. *)
Definition max_by {A} (key : A -> Z) (xs : list A) : option A :=
  match xs with
  | [] => None
  | x :: xs' =>
    Some (fold_left (fun best y => if key best <? key y then y else best) xs' x)
  end.

(** [enumerate(l, start)] *)
Fixpoint enumerate_from {A} (start : nat) (l : list A) : list (nat * A) :=
  match l with
  | [] => []
  | x :: l' => (start, x) :: enumerate_from (S start) l'
  end.

Definition enumerate {A} (l : list A) : list (nat * A) := enumerate_from 0 l.

(** [itertools.groupby(l, key)]: the maximal blocks of consecutive
    elements with the same key, in order, each with its key. *)
Fixpoint groupby {A} (key : A -> Z) (l : list A) : list (Z * list A) :=
  match l with
  | [] => []
  | x :: l' =>
    match groupby key l' with
    | (k, g) :: gs =>
      if key x =? k then (k, x :: g) :: gs else (key x, [x]) :: (k, g) :: gs
    | [] => [(key x, [x])]
    end
  end.

End Builtins.

(** What a Python statement does: it returns a value or raises. *)
Inductive exn := IndexError | ZeroDivisionError | ValueError | OverflowError.

Inductive result (A : Type) :=
  | Ok (a : A)
  | Raise (e : exn).
Arguments Ok {A} a.
Arguments Raise {A} e.

Definition bind {A B} (r : result A) (k : A -> result B) : result B :=
  match r with
  | Ok a => k a
  | Raise e => Raise e
  end.

(** [l[i]] *)
Definition index {A} (l : list A) (i : nat) : result A :=
  match l !! i with
  | Some x => Ok x
  | None => Raise IndexError
  end.

(** A Python [float] is a binary64 number of IEEE 754: 53 bits of
    mantissa, exponents below 1024, every operation rounded to the
    nearest number, to the even one of two that are as near.  The
    operations are those of the Standard Library's specification of
    floats. *)
Definition float := spec_float.

(** The float literals [0.0] and [100.0]. *)
Definition float_0 : float := S754_zero false.
Definition float_100 : float := binary_normalize 53 1024 100 0 false.

(** [x * y] on floats. *)
Definition float_mul (x y : float) : float := SFmul 53 1024 x y.

(** An int as the operand of a division: its exact value, whatever its
    size. *)
Definition exact_int (n : Z) : float :=
  match n with
  | Z0 => S754_zero false
  | Zpos p => S754_finite false p 0
  | Zneg p => S754_finite true p 0
  end.

(** [a / b] on ints: ZeroDivisionError for [b = 0]; otherwise the
    quotient of the two integers rounded once to a float, or
    OverflowError when it is too large for a float. *)
Definition truediv (a b : Z) : result float :=
  if b =? 0 then Raise ZeroDivisionError
  else match SFdiv 53 1024 (exact_int a) (exact_int b) with
       | S754_infinity _ => Raise OverflowError
       | q => Ok q
       end.

(** [str(n)] of an int: its decimal digits, after a minus sign when it is
    negative. *)
Fixpoint uint_chars (u : Decimal.uint) : pystr :=
  match u with
  | Decimal.Nil => []
  | Decimal.D0 u => 48%N :: uint_chars u
  | Decimal.D1 u => 49%N :: uint_chars u
  | Decimal.D2 u => 50%N :: uint_chars u
  | Decimal.D3 u => 51%N :: uint_chars u
  | Decimal.D4 u => 52%N :: uint_chars u
  | Decimal.D5 u => 53%N :: uint_chars u
  | Decimal.D6 u => 54%N :: uint_chars u
  | Decimal.D7 u => 55%N :: uint_chars u
  | Decimal.D8 u => 56%N :: uint_chars u
  | Decimal.D9 u => 57%N :: uint_chars u
  end.

Definition str_int (n : Z) : pystr :=
  match Z.to_int n with
  | Decimal.Pos u => uint_chars u
  | Decimal.Neg u => ord "-" :: uint_chars u
  end.

(** The ASCII character of the digit [d]. *)
Definition digit_char (d : Z) : char := Z.to_N (48 + d).

(** The format specs [<w] and [>w] of an f-string: spaces up to the
    width [w] after or before the text, which is never cut. *)
Definition ljust (w : nat) (s : pystr) : pystr :=
  s ++ replicate (w - length s)%nat 32%N.

Definition rjust (w : nat) (s : pystr) : pystr :=
  replicate (w - length s)%nat 32%N ++ s.

(** Code points of ASCII literals, and the boolean range tests on them. *)
Ltac eval_ord :=
  repeat match goal with
         | |- context [ord ?a] =>
             let v := eval vm_compute in (ord a) in change (ord a) with v
         | H : context [ord ?a] |- _ =>
             let v := eval vm_compute in (ord a) in change (ord a) with v in H
         end.

Ltac split_ranges :=
  repeat match goal with
         | H : _ || _ = true |- _ => apply orb_true_iff in H as [H|H]
         | H : _ && _ = true |- _ => apply andb_true_iff in H as [? ?]
         | H : (_ <=? _)%N = true |- _ => apply N.leb_le in H
         | H : (_ <=? _)%N = false |- _ => apply N.leb_gt in H
         | H : (_ =? _)%N = true |- _ => apply N.eqb_eq in H
         end.

End Py.

(* ===================================================================== *)
(** * quicktips.py                                                         *)
(* ===================================================================== *)

Module Quicktips.
Import Py.

(** What BeautifulSoup hands to the script: a document is the list of its
    [table] elements, a table the list of its [tr] elements, a row the
    list of the texts [td.get_text(" ", strip=True)] of its cells. *)
Definition Row := list pystr.
Definition Table := list Row.
Definition Document := list Table.

(** One row of the output: the dict with the keys "match", "tip", "p1",
    "pX" and "p2". *)
Record Ticket := mkTicket {
  match_ : pystr;
  tip : pystr;
  p1 : Z;
  pX : Z;
  p2 : Z;
}.

#[global] Instance Ticket_eq_dec : EqDecision Ticket.
Proof. solve_decision. Defined.

(** The first alternative that matches, as a backtracking matcher tries
    them. *)
Definition orelse {A} (a b : option A) : option A :=
  match a with
  | Some x => Some x
  | None => b
  end.

Section Extractor.
Context {U : Unicode}.

(** [re.sub(r"\s+", " ", s).strip()] *)
Definition normspace (s : pystr) : pystr := strip (sub_runs isspace (py " ") s).

(** [\d{lo,hi}] followed by [k]: the longest count first, then the
    shorter ones; [ns] lists the counts in that order. *)
Fixpoint digits_then {A} (ns : list nat) (s : pystr) (k : list Z -> pystr -> option A)
  : option A :=
  match ns with
  | [] => None
  | n :: ns' =>
    orelse
      match take_digits n s with
      | Some (ds, rest) => k ds rest
      | None => None
      end
      (digits_then ns' s k)
  end.

(** One literal character followed by [k]. *)
Definition char_then {A} (c : char) (s : pystr) (k : pystr -> option A) : option A :=
  match s with
  | c' :: rest => if (c' =? c)%N then k rest else None
  | [] => None
  end.

(** [\s*$]: nothing but whitespace is left.  ([$] also matches before a
    final newline, which [\s*] takes as whitespace anyway.) *)
Definition spaces_to_end (s : pystr) : option unit :=
  match lstrip s with
  | [] => Some ()
  | _ :: _ => None
  end.

(** PERC_RE = [(\d{1,3})\s*%], matched at the start of [s]: the value of
    group 1.  No whitespace is a percent sign, so [\s*] takes the whole
    run of whitespace. *)
Definition PERC_RE_match (s : pystr) : option Z :=
  digits_then [3; 2; 1]%nat s (fun ds rest =>
    char_then (ord "%") (lstrip rest) (fun _ => Some (int_of_digits ds))).

(** [PERC_RE.search(s)]: the leftmost match. *)
Fixpoint PERC_RE_search (s : pystr) : option Z :=
  orelse (PERC_RE_match s)
    match s with
    | [] => None
    | _ :: s' => PERC_RE_search s'
    end.

Definition parse_percent (cell_text : pystr) : option Z :=
  match PERC_RE_search cell_text with
  | None => None
  | Some v => if (0 <=? v) && (v <=? 100) then Some v else None
  end.

(** DATE_TOKEN_RE = [^\s*\d{1,2}\.\d{1,2}\s*$] *)
Definition DATE_TOKEN_RE_match (s : pystr) : bool :=
  bool_decide (is_Some (
    digits_then [2; 1]%nat (lstrip s) (fun _ r =>
      char_then (ord ".") r (fun r =>
        digits_then [2; 1]%nat r (fun _ r => spaces_to_end r))))).

(** TIME_TOKEN_RE = [^\s*\d{1,2}:\d{2}\s*$] *)
Definition TIME_TOKEN_RE_match (s : pystr) : bool :=
  bool_decide (is_Some (
    digits_then [2; 1]%nat (lstrip s) (fun _ r =>
      char_then (ord ":") r (fun r =>
        digits_then [2]%nat r (fun _ r => spaces_to_end r))))).

(** [DATE_PREFIX_RE.sub("", s)] with DATE_PREFIX_RE =
    [^\s*\d{1,2}\.\d{1,2}\s+]: the pattern is anchored, so at most the
    start of [s] is removed. *)
Definition DATE_PREFIX_RE_sub (s : pystr) : pystr :=
  match
    digits_then [2; 1]%nat (lstrip s) (fun _ r =>
      char_then (ord ".") r (fun r =>
        digits_then [2; 1]%nat r (fun _ r =>
          match r with
          | c :: _ => if isspace c then Some (lstrip r) else None
          | [] => None
          end)))
  with
  | Some rest => rest
  | None => s
  end.

(** The hyphen and the en dash: the class [[-–]]. *)
Definition en_dash : char := 8211.

Definition is_dash (c : char) : bool := (c =? ord "-")%N || (c =? en_dash)%N.

(** [DASH_FIX_RE.sub(" – ", s)] with DASH_FIX_RE = [\s*[-–]\s*].
    [pending] is the run of whitespace read and not yet written: it
    belongs to the match when a dash follows it and is written as it is
    otherwise.  [after_dash] holds while the whitespace after a dash is
    being taken by the match. *)
Fixpoint DASH_FIX_RE_sub_from (after_dash : bool) (pending s : pystr) : pystr :=
  match s with
  | [] => pending
  | c :: s' =>
    if is_dash c then py " – " ++ DASH_FIX_RE_sub_from true [] s'
    else if isspace c then
      if after_dash then DASH_FIX_RE_sub_from true [] s'
      else DASH_FIX_RE_sub_from false (pending ++ [c]) s'
    else pending ++ c :: DASH_FIX_RE_sub_from false [] s'
  end.

Definition DASH_FIX_RE_sub (s : pystr) : pystr := DASH_FIX_RE_sub_from false [] s.

(** [parse_percent(c) is not None] *)
Definition is_percent (c : pystr) : bool :=
  match parse_percent c with
  | Some _ => true
  | None => false
  end.

(** The inner loop of [is_quicktips_table]: [True] as soon as the streak
    of percent cells reaches 3. *)
Fixpoint streak_reaches_3 (streak : nat) (cells : list pystr) : bool :=
  match cells with
  | [] => false
  | c :: cells' =>
    if is_percent c then
      if (3 <=? S streak)%nat then true else streak_reaches_3 (S streak) cells'
    else streak_reaches_3 0%nat cells'
  end.

(** The body of the loop over [rows[:6]]: does this row end the search? *)
Definition row_has_streak (tr : Row) : bool :=
  let cells := map normspace tr in
  if (length cells <? 5)%nat then false else streak_reaches_3 0%nat cells.

Definition is_quicktips_table (table : Table) : bool :=
  match table with
  | [] => false
  | _ => existsb row_has_streak (take 6 table)
  end.

(** [re.fullmatch(r"[0-9%:|\-–.]+", c)] *)
Definition noise_char (c : char) : bool :=
  in_range (ord "0") (ord "9") c || (c =? ord "%")%N || (c =? ord ":")%N ||
  (c =? ord "|")%N || (c =? ord "-")%N || (c =? en_dash)%N || (c =? ord ".")%N.

Definition is_noise_cell (c : pystr) : bool :=
  if (length c <=? 1)%nat then true
  else if DATE_TOKEN_RE_match c then true
  else if TIME_TOKEN_RE_match c then true
  else if forallb noise_char c then true
  else false.

(** [re.search(r"[A-Za-zÁ-Žá-ž]", c)]: A-Z, a-z, U+00C1..U+017D and
    U+00E1..U+017E. *)
Definition letter_char (c : char) : bool :=
  in_range (ord "A") (ord "Z") c || in_range (ord "a") (ord "z") c ||
  in_range 193 381 c || in_range 225 382 c.

Definition plausible_team_text (c : pystr) : bool :=
  if is_noise_cell c then false
  else if negb (existsb letter_char c) then false
  else (3 <=? length (strip c))%nat.

Definition clean_match_name (s : pystr) : pystr :=
  let s := DATE_PREFIX_RE_sub s in
  let s := DASH_FIX_RE_sub s in
  normspace s.

(** The first loop of [extract_teams_from_cells]: the cells outside the
    probability run that read like a team name. *)
Definition candidates_of (cells : list pystr) (perc_set : gset nat) : list pystr :=
  omap (fun '(i, c) =>
          if bool_decide (i ∈ perc_set) then None
          else let c := normspace c in
               if plausible_team_text c then Some c else None)
       (enumerate cells).

(** The second loop: a candidate is appended unless it repeats, up to
    case, the one appended last. *)
Definition dedup_step (dedup : list pystr) (c : pystr) : list pystr :=
  match last dedup with
  | Some d => if bool_decide (lower d ≠ lower c) then dedup ++ [c] else dedup
  | None => dedup ++ [c]
  end.

Definition dedup_of (candidates : list pystr) : list pystr :=
  fold_left dedup_step candidates [].

(** The choice of the two sides among the candidates left: [None] when
    there is none (the label is then "?"). *)
Definition choose_teams (dedup : list pystr) : option (pystr * pystr) :=
  match dedup with
  | [] => None
  | home :: _ =>
    let fallback :=
      match dedup with
      | _ :: second :: _ => second
      | _ => home
      end in
    let away :=
      match find (fun c => bool_decide (lower c ≠ lower home)) (reverse dedup) with
      | Some [] => fallback
      | Some (c0 :: c) => c0 :: c
      | None => fallback
      end in
    Some (home, away)
  end.

Definition team_candidates (cells : list pystr) (perc_indices : list nat) : list pystr :=
  dedup_of (candidates_of cells (list_to_set perc_indices)).

Definition extract_teams_from_cells (cells : list pystr) (perc_indices : list nat)
  : pystr :=
  match choose_teams (team_candidates cells perc_indices) with
  | None => py "?"
  | Some (home, away) => clean_match_name (home ++ py " – " ++ away)
  end.

(** [[i for i, c in enumerate(cells) if parse_percent(c) is not None]] *)
Definition perc_idx_of (cells : list pystr) : list nat :=
  omap (fun '(i, c) => if is_percent c then Some i else None) (enumerate cells).

(** The groups of [itertools.groupby(enumerate(perc_idx), key=lambda x:
    x[0] - x[1])], each as [run = [v for _, v in g]]. *)
Definition runs_of (perc_idx : list nat) : list (list nat) :=
  map (fun kg => map snd (snd kg))
      (groupby (fun x : nat * nat => Z.of_nat (fst x) - Z.of_nat (snd x))
               (enumerate perc_idx)).

Definition best_run_of (perc_idx : list nat) : list nat :=
  fold_left
    (fun best_run run =>
       if (3 <=? length run)%nat && (length best_run <? length run)%nat
       then run else best_run)
    (runs_of perc_idx) [].

(** [parse_percent(c) or 0] *)
Definition percent_or_0 (c : pystr) : Z :=
  match parse_percent c with
  | Some v => if v =? 0 then 0 else v
  | None => 0
  end.

(** [probs.get] on the dict [probs], whose keys keep the order in which
    they were inserted. *)
Definition dict_get (probs : list (pystr * Z)) (k : pystr) : option Z :=
  snd <$> find (fun kv => bool_decide (fst kv = k)) probs.

(** The body of the loop over the rows of a table, from [cells] on: a
    ticket, or [None] where the loop goes on to the next row. *)
Definition extract_row (cells : list pystr) : result (option Ticket) :=
  let perc_idx := perc_idx_of cells in
  let best_run := best_run_of perc_idx in
  if (length best_run <? 3)%nat then Ok None
  else
    bind (index best_run 0) (fun i1 =>
    bind (index best_run 1) (fun iX =>
    bind (index best_run 2) (fun i2 =>
    bind (index cells i1) (fun c1 =>
    bind (index cells iX) (fun cX =>
    bind (index cells i2) (fun c2 =>
      let v1 := percent_or_0 c1 in
      let vX := percent_or_0 cX in
      let v2 := percent_or_0 c2 in
      let match_str := extract_teams_from_cells cells best_run in
      let probs := [(py "1", v1); (py "X", vX); (py "2", v2)] in
      match max_by (fun k => default 0 (dict_get probs k)) (map fst probs) with
      | Some t => Ok (Some (mkTicket match_str t v1 vX v2))
      | None => Raise ValueError
      end)))))).

(** The loop body from the [tr] on: rows of fewer than 5 cells are
    passed over. *)
Definition scan_row (tds : Row) : result (option Ticket) :=
  if (length tds <? 5)%nat then Ok None
  else extract_row (map normspace tds).

(** [rows_out] after the rows [trs], starting from [rows_out]. *)
Fixpoint scan_rows (trs : list Row) (rows_out : list Ticket) : result (list Ticket) :=
  match trs with
  | [] => Ok rows_out
  | tr :: trs' =>
    bind (scan_row tr) (fun r =>
      scan_rows trs' (match r with
                      | Some t => rows_out ++ [t]
                      | None => rows_out
                      end))
  end.

Fixpoint scan_tables (tables : list Table) (rows_out : list Ticket)
  : result (list Ticket) :=
  match tables with
  | [] => Ok rows_out
  | table :: tables' =>
    if is_quicktips_table table
    then bind (scan_rows table rows_out) (scan_tables tables')
    else scan_tables tables' rows_out
  end.

(** No two neighbours of [l] are equal up to case. *)
Definition neighbours_differ (l : list pystr) : Prop :=
  ∀ i a b, l !! i = Some a → l !! S i = Some b → lower a ≠ lower b.

(** A run of three neighbouring percent cells, starting at cell [i]. *)
Definition percent_run3_at (cells : list pystr) (i : nat) : Prop :=
  ∃ c1 cX c2,
    cells !! i = Some c1 ∧ cells !! S i = Some cX ∧ cells !! S (S i) = Some c2 ∧
    is_percent c1 = true ∧ is_percent cX = true ∧ is_percent c2 = true.

Definition has_percent_run3 (cells : list pystr) : Prop :=
  ∃ i, percent_run3_at cells i.

(** An occurrence of [(\d{1,3})\s*%] in [s]: the text [pre] before it,
    the one to three digits [ds] of group 1, the whitespace [sp], the
    percent sign, and the text [post] after it. *)
Definition PERC_RE_occurs (s pre ds sp post : pystr) : Prop :=
  s = pre ++ ds ++ sp ++ ord "%" :: post ∧
  (1 ≤ length ds ≤ 3)%nat ∧
  Forall (fun c => is_Some (decimal c)) ds ∧
  Forall (fun c => isspace c = true) sp.

(** The occurrence that [PERC_RE.search] reports: no occurrence starts
    before it, and none that starts where it does has more digits. *)
Definition PERC_RE_first (s pre ds sp post : pystr) : Prop :=
  PERC_RE_occurs s pre ds sp post ∧
  ∀ pre' ds' sp' post',
    PERC_RE_occurs s pre' ds' sp' post' →
    (length pre < length pre')%nat ∨
    (length pre' = length pre ∧ length ds' ≤ length ds)%nat.

(** [int(m.group(1))] on the digits [ds] of group 1. *)
Definition digits_value (ds : pystr) : Z := int_of_digits (omap decimal ds).

(** The cell test as the specification words it: the cell contains a
    number, that is a whole run of digits, followed by a percent sign,
    after whitespace if any, and the value of the number lies in
    [0,100].  [num] is the number read last, while a percent sign may
    still follow it, and [in_digits] says that it is still being read. *)
Fixpoint spec_percent_from (num : option Z) (in_digits : bool) (s : pystr) : bool :=
  match s with
  | [] => false
  | c :: s' =>
    match decimal c with
    | Some d =>
      spec_percent_from
        (Some (match num with
               | Some v => if in_digits then 10 * v + d else d
               | None => d
               end))
        true s'
    | None =>
      if (c =? ord "%")%N then
        match num with
        | Some v => ((0 <=? v) && (v <=? 100)) || spec_percent_from None false s'
        | None => spec_percent_from None false s'
        end
      else if isspace c then spec_percent_from num false s'
      else spec_percent_from None false s'
    end
  end.

Definition spec_percent_cell (c : pystr) : bool := spec_percent_from None false c.

(** Three neighbouring cells that pass the test of the specification. *)
Fixpoint spec_run3 (cells : list pystr) : bool :=
  match cells with
  | [] => false
  | c1 :: rest =>
    match rest with
    | cX :: c2 :: _ => spec_percent_cell c1 && spec_percent_cell cX && spec_percent_cell c2
    | _ => false
    end
    || spec_run3 rest
  end.

(** The table test as the specification words it: one of the first six
    rows has at least five cells and a run of three cells that pass the
    test of the specification. *)
Definition spec_probability_table (table : Table) : bool :=
  existsb (fun tr => (5 <=? length tr)%nat && spec_run3 (map normspace tr))
          (take 6 table).

End Extractor.

(** The label of the largest of the three probabilities as the
    specification words it: "1" wins a tie with "X" or "2", "X" wins a
    tie with "2". *)
Definition argmax_1X2 (v1 vX v2 : Z) : pystr :=
  if (vX <=? v1) && (v2 <=? v1) then py "1"
  else if v2 <=? vX then py "X"
  else py "2".

(** [key = (r["match"], r["tip"])] *)
Definition key_of (r : Ticket) : pystr * pystr := (match_ r, tip r).

(** The last loop of [parse_quicktips]: [seen] is the set of the keys
    met, [uniq] the rows kept. *)
Definition dedupe_step (st : gset (pystr * pystr) * list Ticket) (r : Ticket)
  : gset (pystr * pystr) * list Ticket :=
  let key := key_of r in
  if bool_decide (key ∈ fst st) then st
  else ({[ key ]} ∪ fst st, snd st ++ [r]).

Definition dedupe (rows_out : list Ticket) : list Ticket :=
  snd (fold_left dedupe_step rows_out (∅, [])).

(** The deduplication as the specification words it: a row is kept
    exactly when no row before it has its (match, tip) pair. *)
Definition first_occurrences (rows : list Ticket) : list Ticket :=
  omap (fun '(i, r) =>
          if bool_decide (key_of r ∈ key_of <$> take i rows) then None else Some r)
       (enumerate rows).

Definition parse_quicktips `{U : Unicode} (html : Document) : result (list Ticket) :=
  bind (scan_tables html []) (fun rows_out => Ok (dedupe rows_out)).

(** The tickets of one [tr], and of a whole document before the
    duplicates are dropped, as comprehensions. *)
Definition tickets_of_row `{U : Unicode} (tr : Row) : list Ticket :=
  match scan_row tr with
  | Ok (Some t) => [t]
  | _ => []
  end.

Definition rows_of `{U : Unicode} (html : Document) : list Ticket :=
  flat_map (fun table =>
              if is_quicktips_table table then flat_map tickets_of_row table else [])
           html.

(** The only whitespace of [s] is the space. *)
Definition plain_spaces (s : pystr) : Prop :=
  Forall (λ c, isspace c = true → c = 32%N) s.

(** [print_ticket]: the match as it is shown, [match[:41] + "..."] when
    it is longer than 44 characters. *)
Definition shown_match (match_ : pystr) : pystr :=
  if (44 <? length match_)%nat then take 41 match_ ++ py "..." else match_.

(** [print_ticket]: the line of the row [r], numbered [idx]:
    [f"{idx:>2}  {match:<44}  {r['tip']:<1}  {r['p1']:>3}  {r['pX']:>3}  {r['p2']:>3}"] *)
Definition ticket_line (idx : nat) (r : Ticket) : pystr :=
  rjust 2 (str_int (Z.of_nat idx)) ++ py "  " ++
  ljust 44 (shown_match (match_ r)) ++ py "  " ++
  ljust 1 (tip r) ++ py "  " ++
  rjust 3 (str_int (p1 r)) ++ py "  " ++
  rjust 3 (str_int (pX r)) ++ py "  " ++
  rjust 3 (str_int (p2 r)).

(** [print_ticket]: the lines of the rows, [enumerate(rows, start=1)]. *)
Definition ticket_lines (rows : list Ticket) : list pystr :=
  map (fun ir => ticket_line (fst ir) (snd ir)) (enumerate_from 1 rows).

End Quicktips.

(* ===================================================================== *)
(** * evaluate_quicktips.py                                                *)
(* ===================================================================== *)

Module Evaluate.
Import Py.

(** A value handed to [normalize_team_name]: a [str], or anything else
    (the [None] of a JSON null, say). *)
Inductive value :=
  | Str (s : pystr)
  | NotStr.

(** One match of the results feed, as far as the script reads it:
    [m.get("status")], [m.get("homeTeam", {}).get("name", "")],
    [(m.get("score") or {}).get("fullTime") or {}] with its "home" and
    "away".  For "status", "homeTeam", "awayTeam" and "name", [None] is
    a key that is missing (a value present is a string or an object; a
    "name" that is null is [Some NotStr]); for "score", "fullTime",
    "home" and "away", which the script reads with [or {}] and [is
    None], it is a key that is missing or null.  A record of the feed is
    a non-empty JSON object, so it counts as true in [if not mdata]. *)
Record Team := { get_name : option value }.
Record FullTime := { get_home : option Z; get_away : option Z }.
Record Score := { get_fullTime : option FullTime }.
Record ResultRecord := {
  get_status : option pystr;
  get_homeTeam : option Team;
  get_awayTeam : option Team;
  get_score : option Score;
}.

(** A row of the ticket file as the main loop reads it: [str(row.match)]
    and [str(row.tip).strip().upper()]. *)
Record TicketRow := { row_match : pystr; row_tip : pystr }.

(** The mark of a ticket: "✅", "❌" or "•". *)
Inductive Symbol := Right | Wrong | Open.

#[global] Instance Symbol_eq_dec : EqDecision Symbol.
Proof. solve_decision. Defined.

(** The counters [ok], [bad] and [pend] of the main loop. *)
Record Tally := mkTally { ok : nat; bad : nat; pend : nat }.

Definition FUZZY_THRESHOLD : Q := Qmake 70 1.

(** [int(x)]: towards zero. *)
Definition int_of (x : Q) : Z := Z.quot (Qnum x) (Zpos (Qden x)).

Definition Qlt_bool (x y : Q) : bool := negb (Qle_bool y x).

(** [[a-z0-9 ]] *)
Definition canonical_char (c : char) : bool :=
  in_range (ord "a") (ord "z") c || in_range (ord "0") (ord "9") c || (c =? ord " ")%N.

Section Evaluator.
Context {U : Unicode}.

(** [fuzz.token_sort_ratio] of the fuzzywuzzy library: an integer
    similarity. *)
Variable token_sort_ratio : pystr -> pystr -> Z.

Definition normalize_team_name (name : value) : pystr :=
  match name with
  | NotStr => []
  | Str name =>
    let name := lower name in
    let name := replace (py " fc") [] name in
    let name := replace (py "cf ") [] name in
    let name := replace (py " sc") [] name in
    let name := replace (py " afc") [] name in
    let name := sub_runs (fun c => negb (canonical_char c)) (py " ") name in
    strip (sub_runs isspace (py " ") name)
  end.

Definition split_match (match_ : pystr) : pystr * pystr :=
  let parts :=
    if contains (py "–") match_ then split (py "–") match_
    else if contains (py "-") match_ then split (py "-") match_
    else [match_; []] in
  let home := strip (default [] (parts !! 0%nat)) in
  let away :=
    match parts !! 1%nat with
    | Some part => strip part
    | None => []
    end in
  (home, away).

(** [m.get(side, {}).get("name", "")] *)
Definition name_of (team : option Team) : value :=
  match team with
  | Some t => default (Str []) (get_name t)
  | None => Str []
  end.

(** The [score] of one record in the loop of [find_best_match]: the mean
    of two integers, a multiple of one half. *)
Definition match_score (match_name : pystr) (m : ResultRecord) : Q :=
  let '(home_csv, away_csv) := split_match match_name in
  let h_norm := normalize_team_name (Str home_csv) in
  let a_norm := normalize_team_name (Str away_csv) in
  let h_api := normalize_team_name (name_of (get_homeTeam m)) in
  let a_api := normalize_team_name (name_of (get_awayTeam m)) in
  Qmake (token_sort_ratio h_norm h_api + token_sort_ratio a_norm a_api) 2.

(** One turn of the loop on [(best, best_score)]. *)
Definition best_step (match_name : pystr) (st : option ResultRecord * Q)
    (m : ResultRecord) : option ResultRecord * Q :=
  let score := match_score match_name m in
  if Qlt_bool (snd st) score then (Some m, score) else st.

Definition find_best_match (match_name : pystr) (results : list ResultRecord)
  : option ResultRecord * Z :=
  let '(best, best_score) :=
    fold_left (best_step match_name) results (None, Qmake (-1) 1) in
  (if Qle_bool FUZZY_THRESHOLD best_score then best else None,
   int_of (if Qle_bool (Qmake 0 1) best_score then best_score else Qmake 0 1)).

(** [(m.get("score") or {}).get("fullTime") or {}] *)
Definition fullTime_of (m : ResultRecord) : FullTime :=
  match get_score m with
  | Some s => default {| get_home := None; get_away := None |} (get_fullTime s)
  | None => {| get_home := None; get_away := None |}
  end.

Definition decide_outcome_1x2 (m : ResultRecord) : pystr :=
  let score := fullTime_of m in
  match get_home score, get_away score with
  | Some hg, Some ag =>
    if ag <? hg then py "1"
    else if hg <? ag then py "2"
    else py "X"
  | _, _ => py "?"
  end.

Definition status_done (m : ResultRecord) : bool :=
  match get_status m with
  | Some st => bool_decide (st = py "FINISHED") || bool_decide (st = py "AWARDED")
  | None => false
  end
  && bool_decide (is_Some (get_home (fullTime_of m))).

(** The outcome column [outc] of a ticket paired with the record [m]. *)
Definition resolve (m : ResultRecord) : pystr :=
  if status_done m then decide_outcome_1x2 m else py "?".

(** The body of the main loop: the mark and the outcome of one ticket
    and the counters after it. *)
Definition judge (tip : pystr) (mdata : option ResultRecord) (t : Tally)
  : Symbol * pystr * Tally :=
  match mdata with
  | None => (Open, py "?", mkTally (ok t) (bad t) (S (pend t)))
  | Some m =>
    if status_done m then
      let outc := decide_outcome_1x2 m in
      if bool_decide (outc = tip)
      then (Right, outc, mkTally (S (ok t)) (bad t) (pend t))
      else (Wrong, outc, mkTally (ok t) (S (bad t)) (pend t))
    else (Open, py "?", t)
  end.

Definition judge_row (results : list ResultRecord) (row : TicketRow) (t : Tally)
  : Symbol * pystr * Tally :=
  judge (row_tip row) (fst (find_best_match (row_match row) results)) t.

(** The mark a row ends with; it does not depend on the counters. *)
Definition mark_of (results : list ResultRecord) (row : TicketRow) : Symbol :=
  fst (fst (judge_row results row (mkTally 0 0 0))).

(** The counters after the loop over the rows. *)
Definition tally_of (rows : list TicketRow) (results : list ResultRecord) : Tally :=
  fold_left (fun t row => snd (judge_row results row t)) rows (mkTally 0 0 0).

(** [acc = (ok / (ok + bad) * 100.0) if (ok + bad) else 0.0] *)
Definition accuracy (t : Tally) : result float :=
  if (ok t + bad t =? 0)%nat then Ok float_0
  else bind (truediv (Z.of_nat (ok t)) (Z.of_nat (ok t + bad t)))
            (fun q => Ok (float_mul q float_100)).

(** A record is final when its status is FINISHED or AWARDED and both
    full-time goal counts are there. *)
Definition final (m : ResultRecord) (hg ag : Z) : Prop :=
  (get_status m = Some (py "FINISHED") ∨ get_status m = Some (py "AWARDED")) ∧
  get_home (fullTime_of m) = Some hg ∧ get_away (fullTime_of m) = Some ag.

(** No two whitespace characters of [s] are neighbours, and [s] does not
    start with one when [after_space] holds. *)
Fixpoint single_spaced (after_space : bool) (s : pystr) : bool :=
  match s with
  | [] => true
  | c :: s' =>
    if isspace c then negb after_space && single_spaced true s'
    else single_spaced false s'
  end.

(** The shape of a normalized name: characters of [[a-z0-9 ]] only, no
    two spaces in a row, no space at either end. *)
Definition canonical (s : pystr) : Prop :=
  Forall (fun c => canonical_char c = true) s ∧
  single_spaced false s = true ∧
  lstrip s = s ∧ lstrip (reverse s) = reverse s.

(** The state of the loop after the records [seen]: nothing yet, or the
    best record so far with its score. *)
Definition best_of (match_name : pystr) (seen : list ResultRecord)
    (st : option ResultRecord * Q) : Prop :=
  (seen = [] ∧ st = (None, Qmake (-1) 1)) ∨
  (∃ m, st = (Some m, match_score match_name m) ∧ m ∈ seen ∧
        ∀ m', m' ∈ seen → (match_score match_name m' <= match_score match_name m)%Q).

(** How many rows get the mark [s]. *)
Definition marked (s : Symbol) (results : list ResultRecord) (rows : list TicketRow)
  : nat :=
  length (filter (λ row, mark_of results row = s) rows).

(** How many rows find no record at or above the threshold. *)
Definition unmatched (results : list ResultRecord) (rows : list TicketRow) : nat :=
  length (filter (λ row, fst (find_best_match (row_match row) results) = None) rows).

(** The four substrings [normalize_team_name] deletes. *)
Definition club_tokens : list pystr := [py " fc"; py "cf "; py " sc"; py " afc"].

End Evaluator.

(** A similarity for running the model: 100 for equal strings, 0
    otherwise. *)
Definition same_ratio (a b : pystr) : Z := if bool_decide (a = b) then 100 else 0.

Section Report.
Context {U : Unicode}.

(** DATE = [(\d{4}-\d{2}-\d{2})] matched at the start of [s]: the text of
    group 1, which is the first ten characters. *)
Definition ISO_DATE_RE_match (s : pystr) : option pystr :=
  Quicktips.digits_then [4]%nat s (fun _ r =>
    Quicktips.char_then (ord "-") r (fun r =>
      Quicktips.digits_then [2]%nat r (fun _ r =>
        Quicktips.char_then (ord "-") r (fun r =>
          Quicktips.digits_then [2]%nat r (fun _ _ => Some (take 10 s)))))).

(** [re.search(r"(\d{4}-\d{2}-\d{2})", fname)]: the leftmost match. *)
Fixpoint ISO_DATE_RE_search (s : pystr) : option pystr :=
  Quicktips.orelse (ISO_DATE_RE_match s)
    match s with
    | [] => None
    | _ :: s' => ISO_DATE_RE_search s'
    end.

(** [today] is [dt.date.today().strftime("%Y-%m-%d")]. *)
Definition extract_date_from_filename (today fname : pystr) : pystr :=
  match ISO_DATE_RE_search fname with
  | Some d => d
  | None => today
  end.

(** The shape of [date.isoformat()]: four digits, two digits and two
    digits with hyphens between them. *)
Definition iso_shaped (d : pystr) : Prop :=
  ∃ y1 y2 y3 y4 m1 m2 d1 d2,
    d = [y1; y2; y3; y4; ord "-"; m1; m2; ord "-"; d1; d2] ∧
    Forall (fun c => is_Some (decimal c)) [y1; y2; y3; y4; m1; m2; d1; d2].

(** [save_csv]: the name of the ticket file written on the day [date]
    ([dt.date.today().isoformat()]), without its directory. *)
Definition ticket_file_name (date : pystr) : pystr :=
  py "tiket_quicktips_" ++ date ++ py ".csv".

End Report.

Definition pretty_score (m : ResultRecord) : pystr :=
  let score := fullTime_of m in
  match get_home score, get_away score with
  | Some hg, Some ag => str_int hg ++ py ":" ++ str_int ag
  | _, _ => py "N/A"
  end.

(** [main]: [match[:44] + "..." if len(match) > 44 else match] *)
Definition match_disp (match_ : pystr) : pystr :=
  if (44 <? length match_)%nat then take 44 match_ ++ py "..." else match_.

(** The state of the loop of [find_best_match] after the records [seen],
    with the place of the best record: nothing scored above -1 yet, or
    the first record with the highest score. *)
Definition first_best_of (token_sort_ratio : pystr -> pystr -> Z) `{U : Unicode}
    (match_name : pystr) (seen : list ResultRecord) (st : option ResultRecord * Q)
  : Prop :=
  (st = (None, Qmake (-1) 1) ∧
   ∀ m, m ∈ seen → (match_score token_sort_ratio match_name m <= Qmake (-1) 1)%Q) ∨
  (∃ before m after,
     seen = before ++ m :: after ∧
     st = (Some m, match_score token_sort_ratio match_name m) ∧
     (Qmake (-1) 1 < match_score token_sort_ratio match_name m)%Q ∧
     (∀ m', m' ∈ before →
        (match_score token_sort_ratio match_name m'
         < match_score token_sort_ratio match_name m)%Q) ∧
     (∀ m', m' ∈ after →
        (match_score token_sort_ratio match_name m'
         <= match_score token_sort_ratio match_name m)%Q)).

End Evaluate.

Section Examples.
Import Py Quicktips.
Context {U : Unicode}.

Example py_en_dash : Py.py "a – b" = [97; 32; 8211; 32; 98]%N.
Proof. reflexivity. Qed.

Example parse_percent_plain : parse_percent (py "40%") = Some 40.
Proof. reflexivity. Qed.

Example parse_percent_spaced : parse_percent (py "ca 7 % ") = Some 7.
Proof. reflexivity. Qed.

Example parse_percent_out_of_range : parse_percent (py "150%") = None.
Proof. reflexivity. Qed.

Example parse_percent_last_three_digits : parse_percent (py "1000%") = Some 0.
Proof. reflexivity. Qed.

Example dash_fix_runs :
  DASH_FIX_RE_sub (py "a  x -b--c ") = py "a  x – b –  – c ".
Proof. reflexivity. Qed.

Example clean_match_name_date :
  clean_match_name (py " 12.10   Sparta-Slavia") = py "Sparta – Slavia".
Proof. reflexivity. Qed.

Example noise_cells :
  map is_noise_cell [py "12.10"; py "20:00"; py "1.5-2"; py "x"; py "Slavia"]
  = [true; true; true; true; false].
Proof. reflexivity. Qed.

Example runs_example :
  runs_of [0; 1; 2; 4; 5; 6; 7; 9]%nat = [[0; 1; 2]; [4; 5; 6; 7]; [9]]%nat.
Proof. reflexivity. Qed.

Example normalize_case_insensitive :
  Evaluate.normalize_team_name (Evaluate.Str (py "AC Milan FC"))
  = Evaluate.normalize_team_name (Evaluate.Str (py "ac milan")).
Proof. reflexivity. Qed.

Example split_match_forms :
  map Evaluate.split_match [py "Bayern – Dortmund"; py "a-b-c"; py "abc"]
  = [(py "Bayern", py "Dortmund"); (py "a", py "b"); (py "abc", [])].
Proof. reflexivity. Qed.

Example open_row_is_not_counted :
  Evaluate.tally_of Evaluate.same_ratio
    [{| Evaluate.row_match := py "Bayern – Dortmund"; Evaluate.row_tip := py "1" |}]
    [{| Evaluate.get_status := Some (py "SCHEDULED");
        Evaluate.get_homeTeam :=
          Some {| Evaluate.get_name := Some (Evaluate.Str (py "Bayern FC")) |};
        Evaluate.get_awayTeam :=
          Some {| Evaluate.get_name := Some (Evaluate.Str (py "Dortmund")) |};
        Evaluate.get_score := None |}]
  = Evaluate.mkTally 0 0 0.
Proof. reflexivity. Qed.

Example dedupe_keeps_first :
  dedupe [mkTicket (py "A – B") (py "1") 50 30 20;
          mkTicket (py "C – D") (py "X") 30 40 30;
          mkTicket (py "A – B") (py "1") 60 20 20]
  = [mkTicket (py "A – B") (py "1") 50 30 20;
     mkTicket (py "C – D") (py "X") 30 40 30].
Proof. vm_compute. reflexivity. Qed.

End Examples.

(* ===================================================================== *)
(** * Properties of the extractor                                          *)
(* ===================================================================== *)

Module QuicktipsFacts.
Import Py Quicktips.

Section Runs.
Local Open Scope nat_scope.

(** ** [enumerate] *)

Lemma enumerate_from_app {A} n (l1 l2 : list A) :
  enumerate_from n (l1 ++ l2)
  = enumerate_from n l1 ++ enumerate_from (n + length l1) l2.
Proof.
  revert n. induction l1 as [|x l1 IH]; intros n; simpl.
  - by rewrite Nat.add_0_r.
  - rewrite IH. do 3 f_equal. lia.
Qed.

Lemma enumerate_from_length {A} n (l : list A) :
  length (enumerate_from n l) = length l.
Proof. revert n. induction l; intros; simpl; auto. Qed.

Lemma enumerate_from_snd {A} n (l : list A) : map snd (enumerate_from n l) = l.
Proof. revert n. induction l; intros; simpl; f_equal; auto. Qed.

Lemma elem_of_enumerate_from {A} n (l : list A) i x :
  (i, x) ∈ enumerate_from n l ↔ n ≤ i ∧ l !! (i - n) = Some x.
Proof.
  revert n. induction l as [|y l IH]; intros n; simpl.
  - split; [by intros ?%elem_of_nil | by intros [_ ?]].
  - rewrite elem_of_cons, IH. split.
    + intros [[= -> ->]|[Hle Hl]].
      * split; [lia|]. by rewrite Nat.sub_diag.
      * split; [lia|]. by replace (i - n) with (S (i - S n)) by lia.
    + intros [Hle Hl]. destruct (decide (i = n)) as [->|Hne].
      * left. rewrite Nat.sub_diag in Hl. by simplify_eq/=.
      * right. split; [lia|].
        by replace (i - n) with (S (i - S n)) in Hl by lia.
Qed.

(** A block of [enumerate_from n l] is the enumeration of a block of [l]. *)
Lemma enumerate_from_block {A} n (l : list A) e1 g e2 :
  enumerate_from n l = e1 ++ g ++ e2 →
  ∃ l1 lg l2, l = l1 ++ lg ++ l2 ∧ g = enumerate_from (n + length l1) lg.
Proof.
  intros He.
  assert (Hl : l = map snd e1 ++ map snd g ++ map snd e2).
  { by rewrite <- !map_app, <- He, enumerate_from_snd. }
  exists (map snd e1), (map snd g), (map snd e2). split; [done|].
  rewrite Hl, !enumerate_from_app in He.
  apply app_inj_1 in He as [_ He].
  - apply app_inj_1 in He as [He _]; [done|].
    by rewrite enumerate_from_length, length_map.
  - by rewrite enumerate_from_length, length_map.
Qed.

(** ** [groupby] *)

Lemma groupby_concat {A} (key : A → Z) l :
  concat (map snd (groupby key l)) = l.
Proof.
  induction l as [|x l IH]; simpl; [done|].
  destruct (groupby key l) as [|[k g] gs]; simpl in *.
  - by rewrite <- IH.
  - destruct (key x =? k)%Z; simpl; by rewrite <- IH.
Qed.

Lemma groupby_keys {A} (key : A → Z) l :
  Forall (λ kg, Forall (λ x, key x = fst kg) (snd kg)) (groupby key l).
Proof.
  induction l as [|x l IH]; simpl; [constructor|].
  destruct (groupby key l) as [|[k g] gs]; simpl in *.
  - repeat constructor.
  - destruct (key x =? k)%Z eqn:Hk.
    + apply Z.eqb_eq in Hk. inversion_clear IH as [|?? Hg Hgs].
      constructor; [|done]. constructor; done.
    + constructor; [|done]. repeat constructor.
Qed.

(** Every group is a block of the list. *)
Lemma groupby_block {A} (key : A → Z) l kg :
  kg ∈ groupby key l → ∃ l1 l2, l = l1 ++ snd kg ++ l2.
Proof.
  intros (gs1 & gs2 & Hgs)%list_elem_of_split.
  exists (concat (map snd gs1)), (concat (map snd gs2)).
  rewrite <- (groupby_concat key l) at 1.
  by rewrite Hgs, map_app, concat_app.
Qed.

Lemma groupby_cons {A} (key : A → Z) x l :
  groupby key (x :: l)
  = match groupby key l with
    | (k, g) :: gs =>
        if (key x =? k)%Z then (k, x :: g) :: gs else (key x, [x]) :: (k, g) :: gs
    | [] => [(key x, [x])]
    end.
Proof. reflexivity. Qed.

Lemma groupby_head {A} (key : A → Z) x l :
  ∃ g gs, groupby key (x :: l) = (key x, x :: g) :: gs.
Proof.
  rewrite groupby_cons. destruct (groupby key l) as [|[k g] gs]; [by eauto|].
  destruct (key x =? k)%Z eqn:Hk; [|by eauto].
  apply Z.eqb_eq in Hk as <-. eauto.
Qed.

Lemma groupby_same {A} (key : A → Z) x y l :
  key x = key y →
  ∃ g gs, groupby key (y :: l) = (key y, y :: g) :: gs ∧
          groupby key (x :: y :: l) = (key y, x :: y :: g) :: gs.
Proof.
  intros Hxy. destruct (groupby_head key y l) as (g & gs & Hg).
  exists g, gs. split; [done|].
  by rewrite (groupby_cons key x), Hg, Hxy, Z.eqb_refl.
Qed.

(** Three neighbours with one key end up in one group. *)
Lemma groupby_long {A} (key : A → Z) l1 x y z l2 :
  key x = key y → key y = key z →
  ∃ kg, kg ∈ groupby key (l1 ++ x :: y :: z :: l2) ∧ 3 ≤ length (snd kg).
Proof.
  intros Hxy Hyz. induction l1 as [|a l1 (kg & Hin & Hlen)].
  - destruct (groupby_same key y z l2 Hyz) as (g & gs & _ & Hg).
    simpl app. rewrite (groupby_cons key x), Hg, Hxy, Hyz, Z.eqb_refl.
    eexists; split; [apply list_elem_of_here|]; simpl; lia.
  - simpl app. rewrite groupby_cons.
    destruct (groupby key (l1 ++ x :: y :: z :: l2)) as [|[k g] gs].
    + by apply elem_of_nil in Hin.
    + apply elem_of_cons in Hin as [->|Hin].
      * destruct (key a =? k)%Z.
        -- eexists; split; [apply list_elem_of_here|]; simpl in *; lia.
        -- eexists; split; [apply list_elem_of_further, list_elem_of_here|done].
      * exists kg. split; [|done].
        destruct (key a =? k)%Z; repeat apply list_elem_of_further; done.
Qed.

(** ** The runs of percent indices *)

Lemma runs_of_long_intro idx P1 i P2 :
  idx = P1 ++ [i; S i; S (S i)] ++ P2 →
  ∃ r, r ∈ runs_of idx ∧ 3 ≤ length r.
Proof.
  intros ->. unfold runs_of, enumerate. rewrite enumerate_from_app. simpl.
  edestruct (groupby_long (λ x : nat * nat, (Z.of_nat (fst x) - Z.of_nat (snd x))%Z))
    as (kg & Hin & Hlen); [| |exists (map snd (snd kg)); split].
  3: { apply list_elem_of_fmap. exists kg. split; [done|]. apply Hin. }
  - simpl. lia.
  - simpl. lia.
  - by rewrite length_map.
Qed.

Lemma runs_of_long_elim idx r :
  r ∈ runs_of idx → 3 ≤ length r →
  ∃ i rest, r = i :: S i :: S (S i) :: rest ∧ i ∈ idx ∧ S i ∈ idx ∧ S (S i) ∈ idx.
Proof.
  unfold runs_of, enumerate. intros (kg & -> & Hkg)%list_elem_of_fmap Hlen.
  destruct (groupby_block _ _ _ Hkg) as (e1 & e2 & He).
  destruct (enumerate_from_block _ _ _ _ _ He) as (i1 & lg & i2 & -> & Hg).
  pose proof (groupby_keys (λ x : nat * nat, (Z.of_nat (fst x) - Z.of_nat (snd x))%Z)
                (enumerate_from 0 (i1 ++ lg ++ i2))) as Hkeys.
  rewrite Forall_forall in Hkeys. specialize (Hkeys _ Hkg).
  rewrite Hg in Hkeys, Hlen |- *. rewrite enumerate_from_snd in Hlen |- *.
  destruct lg as [|a [|b [|c rest]]]; simpl in Hlen; try lia.
  simpl in Hkeys. inversion_clear Hkeys as [|?? Ha Hk1].
  inversion_clear Hk1 as [|?? Hb Hk2]. inversion_clear Hk2 as [|?? Hc _].
  simpl in Ha, Hb, Hc.
  assert (b = S a) as -> by lia. assert (c = S (S a)) as -> by lia.
  exists a, rest. split; [done|]. set_solver.
Qed.

Lemma best_run_fold runs init :
  let f := λ best_run run : list nat,
    if (3 <=? length run) && (length best_run <? length run) then run else best_run in
  let b := fold_left f runs init in
  (b = init ∨ (b ∈ runs ∧ 3 ≤ length b)) ∧
  (∀ r, r ∈ runs → 3 ≤ length r → length r ≤ length b) ∧
  length init ≤ length b.
Proof.
  intros f. revert init. induction runs as [|r runs IH]; intros init; simpl.
  - split; [by left|]. split; [|done]. by intros r ?%elem_of_nil.
  - destruct (IH (f init r)) as (Hb & Hmax & Hinit).
    generalize dependent (fold_left f runs (f init r)). intros b Hb Hmax Hinit.
    assert (Hf : (f init r = init ∧ (3 ≤ length r → length r ≤ length init)) ∨
                 (f init r = r ∧ 3 ≤ length r ∧ length init ≤ length r)).
    { unfold f. destruct (3 <=? length r) eqn:H3; simpl.
      - apply Nat.leb_le in H3. destruct (length init <? length r) eqn:Hlt.
        + apply Nat.ltb_lt in Hlt. right. repeat split; [done|lia].
        + apply Nat.ltb_ge in Hlt. left. by split.
      - apply Nat.leb_gt in H3. left. split; [done|lia]. }
    split; [|split].
    + destruct Hb as [Hb|[Hb ?]].
      * destruct Hf as [[Hf _]|(Hf & ? & ?)]; rewrite Hf in Hb.
        -- by left.
        -- right. rewrite Hb. split; [apply list_elem_of_here|done].
      * right. split; [by apply list_elem_of_further|done].
    + intros r' [->|Hr']%elem_of_cons Hlen; [|by apply Hmax].
      destruct Hf as [[Hf Hle]|(Hf & ? & ?)]; rewrite Hf in Hinit; [|done].
      specialize (Hle Hlen). lia.
    + destruct Hf as [[Hf _]|(Hf & ? & ?)]; rewrite Hf in Hinit; lia.
Qed.

Lemma best_run_of_cases idx :
  best_run_of idx = [] ∨ (best_run_of idx ∈ runs_of idx ∧ 3 ≤ length (best_run_of idx)).
Proof. apply (best_run_fold (runs_of idx) []). Qed.

Lemma best_run_of_long idx r :
  r ∈ runs_of idx → 3 ≤ length r → 3 ≤ length (best_run_of idx).
Proof.
  intros Hr Hlen.
  destruct (best_run_fold (runs_of idx) []) as (_ & Hmax & _).
  specialize (Hmax r Hr Hlen). unfold best_run_of. lia.
Qed.

End Runs.
Section Rows.
Context {U : Unicode}.
Local Open Scope nat_scope.

(** ** The percent cells of a row *)

Lemma elem_of_perc_idx_of cells i :
  i ∈ perc_idx_of cells ↔ ∃ c, cells !! i = Some c ∧ is_percent c = true.
Proof.
  unfold perc_idx_of, enumerate. rewrite list_elem_of_omap. split.
  - intros ([j c] & Hin & Hf). apply elem_of_enumerate_from in Hin as [_ Hc].
    rewrite Nat.sub_0_r in Hc. destruct (is_percent c) eqn:Hp; [|done].
    simplify_eq. eauto.
  - intros (c & Hc & Hp). exists (i, c). rewrite Hp. split; [|done].
    apply elem_of_enumerate_from. rewrite Nat.sub_0_r. split; [lia|done].
Qed.

(** Three neighbouring percent cells give three neighbouring indices. *)
Lemma perc_idx_of_run3 cells i :
  percent_run3_at cells i →
  ∃ P1 P2, perc_idx_of cells = P1 ++ [i; S i; S (S i)] ++ P2.
Proof.
  intros (c1 & cX & c2 & H1 & HX & H2 & Hp1 & HpX & Hp2).
  pose proof (take_drop_middle _ _ _ H1) as Hsplit.
  assert (Hd1 : drop (S i) cells = cX :: c2 :: drop (S (S (S i))) cells).
  { rewrite <- (take_drop_middle (drop (S i) cells) 0 cX).
    - simpl. f_equal. rewrite drop_drop.
      rewrite <- (take_drop_middle (drop (S i + 1) cells) 0 c2).
      + simpl. f_equal. rewrite drop_drop. f_equal. lia.
      + rewrite lookup_drop. by replace (S i + 1 + 0) with (S (S i)) by lia.
    - rewrite lookup_drop. by replace (S i + 0) with (S i) by lia. }
  rewrite Hd1 in Hsplit.
  assert (Hlen : length (take i cells) = i).
  { apply length_take_le. apply lookup_lt_Some in H1. lia. }
  clear H1 HX H2 Hd1. revert Hsplit Hlen.
  generalize (take i cells) as pre, (drop (S (S (S i))) cells) as post.
  intros pre post <- Hlen.
  unfold perc_idx_of, enumerate.
  rewrite enumerate_from_app, omap_app. simpl. rewrite Hlen, Hp1, HpX, Hp2.
  eexists _, _. reflexivity.
Qed.

Lemma best_run_of_spec cells :
  (length (best_run_of (perc_idx_of cells)) < 3 ∧ ¬ has_percent_run3 cells) ∨
  (∃ i rest, best_run_of (perc_idx_of cells) = i :: S i :: S (S i) :: rest ∧
             percent_run3_at cells i).
Proof.
  destruct (best_run_of_cases (perc_idx_of cells)) as [Hnil|[Hin Hlen]].
  - left. rewrite Hnil. split; [simpl; lia|].
    intros [i Hrun]. destruct (perc_idx_of_run3 _ _ Hrun) as (P1 & P2 & Hidx).
    destruct (runs_of_long_intro _ _ _ _ Hidx) as (r & Hr & Hrlen).
    pose proof (best_run_of_long _ _ Hr Hrlen) as Hbest.
    rewrite Hnil in Hbest. simpl in Hbest. lia.
  - right. destruct (runs_of_long_elim _ _ Hin Hlen) as (i & rest & Hb & Hi1 & Hi2 & Hi3).
    exists i, rest. split; [done|].
    apply elem_of_perc_idx_of in Hi1 as (c1 & ? & ?).
    apply elem_of_perc_idx_of in Hi2 as (cX & ? & ?).
    apply elem_of_perc_idx_of in Hi3 as (c2 & ? & ?).
    exists c1, cX, c2. done.
Qed.

(** ** The tip *)

Lemma max_by_probs v1 vX v2 :
  let probs := [(py "1", v1); (py "X", vX); (py "2", v2)] in
  max_by (λ k, default 0%Z (dict_get probs k)) (map fst probs)
  = Some (argmax_1X2 v1 vX v2).
Proof.
  intros probs. set (key := λ k, default 0%Z (dict_get probs k)).
  assert (K1 : key (py "1") = v1) by reflexivity.
  assert (KX : key (py "X") = vX) by reflexivity.
  assert (K2 : key (py "2") = v2) by reflexivity.
  clearbody key. unfold max_by, probs, argmax_1X2. cbn [map fold_left fst].
  rewrite K1, KX. f_equal.
  destruct (v1 <? vX)%Z eqn:H1X; rewrite ?K1, ?KX, K2.
  - destruct (vX <? v2)%Z eqn:HX2;
      destruct (vX <=? v1)%Z eqn:?, (v2 <=? v1)%Z eqn:?, (v2 <=? vX)%Z eqn:?;
      simpl; try reflexivity; lia.
  - destruct (v1 <? v2)%Z eqn:H12;
      destruct (vX <=? v1)%Z eqn:?, (v2 <=? v1)%Z eqn:?, (v2 <=? vX)%Z eqn:?;
      simpl; try reflexivity; lia.
Qed.

Lemma percent_or_0_range c : (0 ≤ percent_or_0 c ≤ 100)%Z.
Proof.
  unfold percent_or_0, parse_percent.
  destruct (PERC_RE_search c) as [v|]; [|lia].
  destruct (0 <=? v)%Z eqn:H0, (v <=? 100)%Z eqn:H100; simpl; try lia.
  destruct (v =? 0)%Z; lia.
Qed.

(** ** What [extract_row] returns *)

Lemma extract_row_spec cells :
  (¬ has_percent_run3 cells ∧ extract_row cells = Ok None) ∨
  (∃ i rest c1 cX c2,
     best_run_of (perc_idx_of cells) = i :: S i :: S (S i) :: rest ∧
     cells !! i = Some c1 ∧ cells !! S i = Some cX ∧ cells !! S (S i) = Some c2 ∧
     is_percent c1 = true ∧ is_percent cX = true ∧ is_percent c2 = true ∧
     extract_row cells =
       Ok (Some (mkTicket
                   (extract_teams_from_cells cells (i :: S i :: S (S i) :: rest))
                   (argmax_1X2 (percent_or_0 c1) (percent_or_0 cX) (percent_or_0 c2))
                   (percent_or_0 c1) (percent_or_0 cX) (percent_or_0 c2)))).
Proof.
  unfold extract_row.
  destruct (best_run_of_spec cells) as [[Hlen Hno]|(i & rest & Hb & Hrun)].
  - left. split; [done|]. apply Nat.ltb_lt in Hlen. by rewrite Hlen.
  - right. destruct Hrun as (c1 & cX & c2 & H1 & HX & H2 & Hp1 & HpX & Hp2).
    exists i, rest, c1, cX, c2. repeat (split; [done|]).
    rewrite Hb. cbn [length Nat.ltb Nat.leb index lookup list_lookup bind].
    unfold index. rewrite H1, HX, H2. cbn [bind].
    by rewrite max_by_probs.
Qed.

End Rows.

Section Classifier.
Context {U : Unicode}.
Local Open Scope nat_scope.

Lemma percent_run3_at_cons c cells i :
  percent_run3_at (c :: cells) (S i) ↔ percent_run3_at cells i.
Proof. reflexivity. Qed.

Lemma percent_run3_at_0 cells :
  percent_run3_at cells 0 ↔
  ∀ j, j < 3 → ∃ c, cells !! j = Some c ∧ is_percent c = true.
Proof.
  split.
  - intros (c1 & cX & c2 & H1 & HX & H2 & Hp1 & HpX & Hp2) j Hj.
    destruct j as [|[|[|j]]]; [eauto..|lia].
  - intros H. destruct (H 0) as (c1 & ? & ?); [lia|].
    destruct (H 1) as (cX & ? & ?); [lia|]. destruct (H 2) as (c2 & ? & ?); [lia|].
    by exists c1, cX, c2.
Qed.

(** The streak counter: with [streak] percent cells just read, the loop
    answers [True] exactly when the cells ahead hold a run of three or
    complete the run in progress. *)
Lemma streak_reaches_3_spec streak cells :
  streak ≤ 2 →
  streak_reaches_3 streak cells = true ↔
  has_percent_run3 cells ∨
  (∀ j, j < 3 - streak → ∃ c, cells !! j = Some c ∧ is_percent c = true).
Proof.
  revert streak. induction cells as [|c cells IH]; intros k Hk;
    cbn [streak_reaches_3].
  - split; [done|]. intros [(i & c1 & ? & ? & H1 & _)|H]; [done|].
    destruct (H 0) as (c & Hc & _); [lia|done].
  - destruct (is_percent c) eqn:Hp.
    + destruct (3 <=? S k) eqn:H3.
      * apply Nat.leb_le in H3. split; [intros _|done]. right.
        intros j Hj. assert (j = 0) as -> by lia. eauto.
      * apply Nat.leb_gt in H3. rewrite IH by lia. split.
        -- intros [[i Hrun]|H]; [left; by exists (S i)|]. right.
           intros [|j] Hj; [eauto|]. apply H. lia.
        -- intros [[[|i] Hrun]|H].
           ++ right. intros j Hj.
              apply (proj1 (percent_run3_at_0 _) Hrun (S j)). lia.
           ++ left. by exists i.
           ++ right. intros j Hj. apply (H (S j)). lia.
    + rewrite IH by lia. split.
      * intros [[i Hrun]|H]; left; [by exists (S i)|].
        exists 1. apply percent_run3_at_cons. apply (proj2 (percent_run3_at_0 _)).
        intros j Hj. apply H. lia.
      * intros [[[|i] Hrun]|H].
        -- destruct Hrun as (c1 & ? & ? & [= <-] & _ & _ & Hp1 & _). congruence.
        -- left. by exists i.
        -- destruct (H 0) as (c' & [= <-] & Hp'); [lia|congruence].
Qed.

(** ** The match of [PERC_RE] in a cell *)

Lemma take_digits_app cs rest :
  Forall (λ c, is_Some (decimal c)) cs →
  take_digits (length cs) (cs ++ rest) = Some (omap decimal cs, rest).
Proof.
  induction 1 as [|c cs [d Hd] _ IH]; [done|].
  cbn [length app take_digits omap list_omap]. by rewrite Hd, IH.
Qed.

Lemma take_digits_inv n s vals rest :
  take_digits n s = Some (vals, rest) →
  ∃ cs, s = cs ++ rest ∧ length cs = n ∧
        Forall (λ c, is_Some (decimal c)) cs ∧ vals = omap decimal cs.
Proof.
  revert s vals. induction n as [|n IH]; intros s vals; cbn [take_digits].
  - intros [= <- <-]. by exists [].
  - destruct s as [|c s]; [done|]. destruct (decimal c) as [d|] eqn:Hc; [|done].
    destruct (take_digits n s) as [[ds' rest']|] eqn:Ht; [|done].
    intros [= <- <-]. destruct (IH _ _ Ht) as (cs & -> & Hlen & Hcs & ->).
    exists (c :: cs). split; [done|]. split; [by simpl; f_equal|].
    split; [constructor; [by rewrite Hc|done]|].
    cbn [omap list_omap]. by rewrite Hc.
Qed.

Lemma lstrip_split s : ∃ w, s = w ++ lstrip s ∧ Forall (λ c, isspace c = true) w.
Proof.
  induction s as [|c s (w & IH & Hw)]; [by exists []|]. cbn [lstrip].
  destruct (isspace c) eqn:Hc; [|by exists []].
  exists (c :: w). split; [by simpl; f_equal|by constructor].
Qed.

Lemma lstrip_to_percent sp post :
  Forall (λ c, isspace c = true) sp → lstrip (sp ++ ord "%" :: post) = ord "%" :: post.
Proof. induction 1 as [|c sp Hc _ IH]; [done|]. cbn [app lstrip]. by rewrite Hc. Qed.

(** One alternative of [\d{1,3}]: exactly [n] digits, then [\s*%]. *)
Lemma PERC_RE_digits_spec n s v :
  match take_digits n s with
  | Some (ds, rest) =>
      char_then (ord "%") (lstrip rest) (λ _, Some (int_of_digits ds))
  | None => None
  end = Some v ↔
  ∃ ds sp post,
    s = ds ++ sp ++ ord "%" :: post ∧ length ds = n ∧
    Forall (λ c, is_Some (decimal c)) ds ∧ Forall (λ c, isspace c = true) sp ∧
    v = digits_value ds.
Proof.
  split.
  - destruct (take_digits n s) as [[vals rest]|] eqn:Ht; [|done].
    apply take_digits_inv in Ht as (cs & -> & Hlen & Hcs & ->).
    destruct (lstrip_split rest) as (w & Hrest & Hw).
    destruct (lstrip rest) as [|c post] eqn:Hl; [done|]. cbn [char_then].
    destruct (c =? ord "%")%N eqn:Hc; [|done]. apply N.eqb_eq in Hc as ->.
    intros [= <-]. exists cs, w, post. by rewrite Hrest at 1.
  - intros (ds & sp & post & -> & <- & Hds & Hsp & ->).
    rewrite take_digits_app by done. rewrite lstrip_to_percent by done.
    cbn [char_then]. by rewrite N.eqb_refl.
Qed.

Lemma PERC_RE_occurs_digits s ds sp post :
  PERC_RE_occurs s [] ds sp post →
  (length ds = 1 ∨ length ds = 2 ∨ length ds = 3) ∧
  match take_digits (length ds) s with
  | Some (ds, rest) =>
      char_then (ord "%") (lstrip rest) (λ _, Some (int_of_digits ds))
  | None => None
  end = Some (digits_value ds).
Proof.
  intros (Hs & Hlen & Hds & Hsp). split; [lia|].
  apply PERC_RE_digits_spec. by exists ds, sp, post.
Qed.

Lemma PERC_RE_digits_occurs n s v :
  1 ≤ n ≤ 3 →
  match take_digits n s with
  | Some (ds, rest) =>
      char_then (ord "%") (lstrip rest) (λ _, Some (int_of_digits ds))
  | None => None
  end = Some v →
  ∃ ds sp post, PERC_RE_occurs s [] ds sp post ∧ length ds = n ∧ v = digits_value ds.
Proof.
  intros Hn (ds & sp & post & Hs & Hl & Hds & Hsp & Hv)%PERC_RE_digits_spec.
  exists ds, sp, post. split; [|done]. split; [done|]. split; [lia|done].
Qed.

Lemma PERC_RE_occurs_same s ds sp post ds' sp' post' :
  PERC_RE_occurs s [] ds sp post → PERC_RE_occurs s [] ds' sp' post' →
  length ds = length ds' → ds = ds'.
Proof.
  intros (Hs & _) (Hs' & _) Hlen. cbn [app] in Hs, Hs'. rewrite Hs in Hs'.
  by apply app_inj_1 in Hs' as [? _].
Qed.

Lemma PERC_RE_pick s v (T : nat → option Z) :
  (∀ n w, 1 ≤ n ≤ 3 → T n = Some w →
          ∃ ds sp post, PERC_RE_occurs s [] ds sp post ∧ length ds = n ∧
                        w = digits_value ds) →
  (∀ ds sp post, PERC_RE_occurs s [] ds sp post →
                 (length ds = 1 ∨ length ds = 2 ∨ length ds = 3) ∧
                 T (length ds) = Some (digits_value ds)) →
  match T 3 with
  | Some x => Some x
  | None => match T 2 with
            | Some x => Some x
            | None => match T 1 with
                      | Some x => Some x
                      | None => None
                      end
            end
  end = Some v ↔
  ∃ ds sp post,
    PERC_RE_occurs s [] ds sp post ∧ v = digits_value ds ∧
    ∀ ds' sp' post', PERC_RE_occurs s [] ds' sp' post' → length ds' ≤ length ds.
Proof.
  intros Hin Hout.
  assert (Hpick : ∀ n w, 1 ≤ n ≤ 3 → T n = Some w →
            (∀ n', n < n' ≤ 3 → T n' = None) →
            Some w = Some v ↔
            ∃ ds sp post,
              PERC_RE_occurs s [] ds sp post ∧ v = digits_value ds ∧
              ∀ ds' sp' post', PERC_RE_occurs s [] ds' sp' post' →
                               length ds' ≤ length ds).
  { intros n w Hn Hw Habove.
    destruct (Hin n w Hn Hw) as (ds & sp & post & Ho & Hl & ->).
    assert (Hmax : ∀ ds' sp' post', PERC_RE_occurs s [] ds' sp' post' →
                                    length ds' ≤ length ds).
    { intros ds' sp' post' Ho'. destruct (Hout _ _ _ Ho') as [Hl' HT'].
      destruct (decide (length ds' ≤ n)) as [|Hgt]; [lia|].
      rewrite Habove in HT' by lia. done. }
    split.
    - intros [= <-]. by exists ds, sp, post.
    - intros (ds0 & sp0 & post0 & Ho0 & -> & Hmax0). do 2 f_equal.
      apply (PERC_RE_occurs_same s _ sp post _ sp0 post0); [done..|].
      pose proof (Hmax _ _ _ Ho0). pose proof (Hmax0 _ _ _ Ho). lia. }
  destruct (T 3) as [v3|] eqn:E3.
  { apply (Hpick 3 v3); [lia|done|]. intros n' ?. lia. }
  destruct (T 2) as [v2|] eqn:E2.
  { apply (Hpick 2 v2); [lia|done|]. intros n' ?. by assert (n' = 3) as -> by lia. }
  destruct (T 1) as [v1|] eqn:E1.
  { apply (Hpick 1 v1); [lia|done|]. intros n' ?.
    assert (n' = 2 ∨ n' = 3) as [-> | ->] by lia; done. }
  split; [done|]. intros (ds & sp & post & Ho & _).
  destruct (Hout _ _ _ Ho) as [[Hl|[Hl|Hl]] HT]; rewrite Hl in HT; congruence.
Qed.

Lemma PERC_RE_match_spec s v :
  PERC_RE_match s = Some v ↔
  ∃ ds sp post,
    PERC_RE_occurs s [] ds sp post ∧ v = digits_value ds ∧
    ∀ ds' sp' post', PERC_RE_occurs s [] ds' sp' post' → length ds' ≤ length ds.
Proof.
  unfold PERC_RE_match. cbn [digits_then]. unfold orelse.
  apply (PERC_RE_pick s v
           (λ n, match take_digits n s with
                 | Some (ds, rest) =>
                     char_then (ord "%") (lstrip rest) (λ _, Some (int_of_digits ds))
                 | None => None
                 end)).
  - intros n w. apply PERC_RE_digits_occurs.
  - intros ds sp post. apply PERC_RE_occurs_digits.
Qed.

Lemma PERC_RE_pick_none s (T : nat → option Z) ds sp post :
  (∀ ds sp post, PERC_RE_occurs s [] ds sp post →
                 (length ds = 1 ∨ length ds = 2 ∨ length ds = 3) ∧
                 T (length ds) = Some (digits_value ds)) →
  match T 3 with
  | Some x => Some x
  | None => match T 2 with
            | Some x => Some x
            | None => match T 1 with
                      | Some x => Some x
                      | None => None
                      end
            end
  end = None →
  ¬ PERC_RE_occurs s [] ds sp post.
Proof.
  intros Hout Hm Ho.
  destruct (Hout _ _ _ Ho) as [[Hl|[Hl|Hl]] HT]; rewrite Hl in HT;
    destruct (T 3), (T 2), (T 1); congruence.
Qed.

Lemma PERC_RE_match_none s ds sp post :
  PERC_RE_match s = None → ¬ PERC_RE_occurs s [] ds sp post.
Proof.
  unfold PERC_RE_match. cbn [digits_then]. unfold orelse.
  apply (PERC_RE_pick_none s
           (λ n, match take_digits n s with
                 | Some (ds, rest) =>
                     char_then (ord "%") (lstrip rest) (λ _, Some (int_of_digits ds))
                 | None => None
                 end)).
  intros ds' sp' post'. apply PERC_RE_occurs_digits.
Qed.

Lemma PERC_RE_occurs_cons x s pre ds sp post :
  PERC_RE_occurs (x :: s) (x :: pre) ds sp post ↔ PERC_RE_occurs s pre ds sp post.
Proof.
  unfold PERC_RE_occurs. cbn [app].
  split; intros (Hs & ?); (split; [|done]); [by injection Hs|by f_equal].
Qed.

Lemma PERC_RE_occurs_head x y s pre ds sp post :
  PERC_RE_occurs (x :: s) (y :: pre) ds sp post → y = x.
Proof. intros (Hs & _). cbn [app] in Hs. by injection Hs. Qed.

Lemma PERC_RE_occurs_nil pre ds sp post : ¬ PERC_RE_occurs [] pre ds sp post.
Proof.
  intros (Hs & Hlen & _). apply (f_equal length) in Hs.
  rewrite !length_app in Hs. simpl in Hs. lia.
Qed.

(** [PERC_RE.search] reports the leftmost occurrence, with as many digits
    as match there. *)
Lemma PERC_RE_search_spec c v :
  PERC_RE_search c = Some v ↔
  ∃ pre ds sp post, PERC_RE_first c pre ds sp post ∧ v = digits_value ds.
Proof.
  revert v. induction c as [|x c IH]; intros v.
  - split; [done|]. intros (pre & ds & sp & post & [Ho _] & _).
    by destruct (PERC_RE_occurs_nil _ _ _ _ Ho).
  - cbn [PERC_RE_search]. unfold orelse.
    destruct (PERC_RE_match (x :: c)) as [v0|] eqn:Hm.
    + apply PERC_RE_match_spec in Hm as (ds0 & sp0 & post0 & Ho0 & -> & Hmax0). split.
      * intros [= <-]. exists [], ds0, sp0, post0. split; [|done]. split; [done|].
        intros pre' ds' sp' post' Ho'. destruct pre' as [|y pre'].
        -- right. split; [done|]. by eapply Hmax0.
        -- left. simpl. lia.
      * intros (pre & ds & sp & post & [Ho Hfirst] & ->).
        destruct (Hfirst _ _ _ _ Ho0) as [Hlt|[Hlen Hle]]; [simpl in Hlt; lia|].
        destruct pre as [|y pre]; [|done]. do 2 f_equal.
        apply (PERC_RE_occurs_same (x :: c) _ sp0 post0 _ sp post); [done..|].
        pose proof (Hmax0 _ _ _ Ho). lia.
    + rewrite IH. split.
      * intros (pre & ds & sp & post & [Ho Hfirst] & ->).
        exists (x :: pre), ds, sp, post. split; [|done].
        split; [by apply (proj2 (PERC_RE_occurs_cons x _ _ _ _ _))|].
        intros pre' ds' sp' post' Ho'. destruct pre' as [|y pre'].
        { by destruct (PERC_RE_match_none _ _ _ _ Hm Ho'). }
        pose proof (PERC_RE_occurs_head _ _ _ _ _ _ _ Ho') as ->.
        apply (proj1 (PERC_RE_occurs_cons _ _ _ _ _ _)) in Ho'.
        destruct (Hfirst _ _ _ _ Ho') as [?|[? ?]]; [left|right]; simpl; lia.
      * intros (pre & ds & sp & post & [Ho Hfirst] & ->). destruct pre as [|y pre].
        { by destruct (PERC_RE_match_none _ _ _ _ Hm Ho). }
        pose proof (PERC_RE_occurs_head _ _ _ _ _ _ _ Ho) as ->.
        exists pre, ds, sp, post. split; [|done].
        split; [by apply (proj1 (PERC_RE_occurs_cons x _ _ _ _ _))|].
        intros pre' ds' sp' post' Ho'.
        apply (proj2 (PERC_RE_occurs_cons x _ _ _ _ _)) in Ho'.
        destruct (Hfirst _ _ _ _ Ho') as [?|[? ?]]; [left|right]; simpl in *; lia.
Qed.

(** C5, amended. A table is taken for a QuickTips table exactly when one
    of its first six rows has at least five cells and, among them, three
    neighbouring percent cells; rows of fewer than five cells decide
    nothing and one row is enough.  A percent cell is one where
    [parse_percent] is not [None]: the leftmost occurrence in the cell
    of one to three digits, whitespace if any and a percent sign, taken
    with as many digits as match there, has a value in [0,100].  Later
    occurrences in the cell, and digits before the ones matched, are not
    looked at. *)
Theorem is_quicktips_table_iff (table : Table) :
  (is_quicktips_table table = true ↔
   ∃ tr, tr ∈ take 6 table ∧ 5 ≤ length tr ∧ has_percent_run3 (map normspace tr)) ∧
  (∀ c, is_percent c = true ↔
        ∃ pre ds sp post,
          PERC_RE_first c pre ds sp post ∧ (0 ≤ digits_value ds ≤ 100)%Z).
Proof.
  split.
  - assert (Hrow : ∀ tr, row_has_streak tr = true ↔
                         5 ≤ length tr ∧ has_percent_run3 (map normspace tr)).
    { intros tr. unfold row_has_streak. rewrite length_map.
      destruct (length tr <? 5) eqn:Hlen.
      - apply Nat.ltb_lt in Hlen. split; [done|lia].
      - apply Nat.ltb_ge in Hlen. rewrite streak_reaches_3_spec by lia.
        split.
        + intros [H|H]; (split; [done|]); [done|].
          exists 0. by apply (proj2 (percent_run3_at_0 _)).
        + intros [_ H]. by left. }
    unfold is_quicktips_table. destruct table as [|tr0 table].
    + split; [done|]. by intros (tr & ?%elem_of_nil & _).
    + rewrite existsb_exists. split.
      * intros (tr & Hin & Hs). exists tr. rewrite <- Hrow.
        split; [by apply list_elem_of_In|done].
      * intros (tr & Hin & Hs). exists tr. rewrite Hrow.
        split; [by apply list_elem_of_In|done].
  - intros c. unfold is_percent, parse_percent.
    destruct (PERC_RE_search c) as [v|] eqn:Hs.
    + apply PERC_RE_search_spec in Hs as (pre & ds & sp & post & Hfirst & ->).
      destruct ((0 <=? digits_value ds)%Z && (digits_value ds <=? 100)%Z) eqn:Hr.
      * apply andb_true_iff in Hr as [?%Z.leb_le ?%Z.leb_le].
        split; [intros _|done]. by exists pre, ds, sp, post.
      * split; [done|]. intros (pre' & ds' & sp' & post' & Hfirst' & Hrange).
        assert (Hs' : PERC_RE_search c = Some (digits_value ds'))
          by (apply PERC_RE_search_spec; eauto 10).
        assert (Hs0 : PERC_RE_search c = Some (digits_value ds))
          by (apply PERC_RE_search_spec; eauto 10).
        rewrite Hs0 in Hs'. injection Hs' as Heq. rewrite <- Heq in Hrange.
        apply andb_false_iff in Hr as [?%Z.leb_gt|?%Z.leb_gt]; lia.
    + split; [done|]. intros (pre & ds & sp & post & Hfirst & _).
      assert (Hs' : PERC_RE_search c = Some (digits_value ds))
        by (apply PERC_RE_search_spec; eauto 10).
      congruence.
Qed.

End Classifier.

Section RowClaims.
Context {U : Unicode}.
Local Open Scope nat_scope.

(** C3. A row of cells yields a ticket exactly when it holds three
    neighbouring percent cells, and the tip of the ticket is then the
    label of the largest of its three probabilities, "1" before "X"
    before "2" among equals. *)
Theorem tip_is_argmax (cells : list pystr) :
  (has_percent_run3 cells → ∃ t, extract_row cells = Ok (Some t)) ∧
  (∀ t, extract_row cells = Ok (Some t) →
        has_percent_run3 cells ∧ tip t = argmax_1X2 (p1 t) (pX t) (p2 t)).
Proof.
  destruct (extract_row_spec cells)
    as [[Hno Hr]|(i & rest & c1 & cX & c2 & Hb & H1 & HX & H2 & Hp1 & HpX & Hp2 & Hr)];
    rewrite Hr.
  - split; [done|]. by intros t [=].
  - split; [eauto|]. intros t [= <-]. split; [|done].
    exists i, c1, cX, c2. done.
Qed.

Lemma best_run_of_subset idx j : j ∈ best_run_of idx → j ∈ idx.
Proof.
  destruct (best_run_of_cases idx) as [->|[Hin _]]; [by intros ?%elem_of_nil|].
  intros Hj. unfold runs_of in Hin.
  apply list_elem_of_fmap in Hin as ([k g] & Hrun & Hg). cbn [snd] in Hrun.
  rewrite Hrun in Hj. apply list_elem_of_fmap in Hj as ([i v] & -> & Hiv).
  assert (Hc : (i, v) ∈ concat (map snd (groupby
                 (λ x : nat * nat, Z.of_nat (fst x) - Z.of_nat (snd x))%Z
                 (enumerate idx)))).
  { apply list_elem_of_In, in_concat. exists g.
    split; [|by apply list_elem_of_In].
    apply list_elem_of_In, list_elem_of_fmap. by exists (k, g). }
  rewrite groupby_concat in Hc. cbn [snd].
  rewrite <- (enumerate_from_snd 0 idx). apply list_elem_of_fmap. by exists (i, v).
Qed.


(** C6. Scenario A: the row "12.10", "Slavia", "40%", "25%", "35%",
    "20:00" gives the ticket Slavia – Slavia, tip 1, 40/25/35: the date
    and the time are noise, one team cell is left, and the away side
    repeats the home side. *)
Theorem scenario_A_slavia :
  let tds := [py "12.10"; py "Slavia"; py "40%"; py "25%"; py "35%"; py "20:00"] in
  let ticket := mkTicket (py "Slavia – Slavia") (py "1") 40 25 35 in
  is_noise_cell (py "12.10") = true ∧
  is_noise_cell (py "20:00") = true ∧
  team_candidates tds [2; 3; 4] = [py "Slavia"] ∧
  choose_teams [py "Slavia"] = Some (py "Slavia", py "Slavia") ∧
  scan_row tds = Ok (Some ticket) ∧
  parse_quicktips [[tds]] = Ok [ticket].
Proof. vm_compute. repeat split; reflexivity. Qed.

End RowClaims.

Section Dedupe.
Local Open Scope nat_scope.

Lemma dedupe_seen rows k :
  k ∈ fst (fold_left dedupe_step rows (∅, [])) ↔ k ∈ key_of <$> rows.
Proof.
  revert k. induction rows as [|r rows IH] using rev_ind; intros k; simpl.
  - set_solver.
  - rewrite fold_left_app, fmap_app. simpl. unfold dedupe_step at 1.
    case_bool_decide as Hin; simpl.
    + rewrite IH, elem_of_app, list_elem_of_singleton. split; [tauto|].
      intros [?| ->]; [done|by apply IH].
    + rewrite elem_of_union, elem_of_singleton, IH, elem_of_app,
        list_elem_of_singleton. tauto.
Qed.

Lemma dedupe_snoc rows r :
  dedupe (rows ++ [r])
  = if bool_decide (key_of r ∈ key_of <$> rows) then dedupe rows
    else dedupe rows ++ [r].
Proof.
  unfold dedupe. rewrite fold_left_app. simpl. unfold dedupe_step at 1.
  pose proof (dedupe_seen rows (key_of r)) as Hseen.
  do 2 case_bool_decide; simpl; tauto.
Qed.

Lemma enumerate_from_lt {A} n (l : list A) i x :
  (i, x) ∈ enumerate_from n l → i < n + length l.
Proof.
  intros [Hle Hl]%elem_of_enumerate_from. apply lookup_lt_Some in Hl. lia.
Qed.

Lemma first_occurrences_snoc rows r :
  first_occurrences (rows ++ [r])
  = first_occurrences rows ++
    (if bool_decide (key_of r ∈ key_of <$> rows) then [] else [r]).
Proof.
  unfold first_occurrences, enumerate.
  rewrite enumerate_from_app, omap_app. f_equal.
  - apply list_omap_ext, Forall2_same_length_lookup_2; [done|].
    intros j [i x] [i' x'] Hj Hj'. simplify_eq.
    apply list_elem_of_lookup_2, enumerate_from_lt in Hj. simpl in Hj.
    by rewrite take_app_le by lia.
  - simpl. rewrite take_app_length. by case_bool_decide.
Qed.

Lemma dedupe_first_occurrences rows : dedupe rows = first_occurrences rows.
Proof.
  induction rows as [|r rows IH] using rev_ind; [done|].
  rewrite dedupe_snoc, first_occurrences_snoc, IH.
  case_bool_decide; [by rewrite app_nil_r|done].
Qed.

Lemma dedupe_sublist rows : dedupe rows `sublist_of` rows.
Proof.
  induction rows as [|r rows IH] using rev_ind; [done|].
  rewrite dedupe_snoc. case_bool_decide.
  - by apply sublist_inserts_r.
  - by apply sublist_app.
Qed.

Lemma dedupe_keys rows k :
  k ∈ key_of <$> dedupe rows ↔ k ∈ key_of <$> rows.
Proof.
  revert k. induction rows as [|r rows IH] using rev_ind; intros k; [done|].
  rewrite dedupe_snoc. case_bool_decide as Hin; rewrite !fmap_app, ?elem_of_app, IH.
  - simpl. rewrite list_elem_of_singleton. split; [tauto|].
    intros [?| ->]; [tauto|done].
  - done.
Qed.

Lemma dedupe_NoDup rows : NoDup (key_of <$> dedupe rows).
Proof.
  induction rows as [|r rows IH] using rev_ind; [constructor|].
  rewrite dedupe_snoc. case_bool_decide as Hin; [done|].
  rewrite fmap_app. simpl. apply NoDup_app.
  split; [done|]. split.
  - intros k Hk Hk'. apply list_elem_of_singleton in Hk' as ->.
    apply Hin. by apply (proj1 (dedupe_keys rows (key_of r))).
  - constructor; [by intros ?%elem_of_nil|constructor].
Qed.

Lemma dedupe_fixed rows : NoDup (key_of <$> rows) → dedupe rows = rows.
Proof.
  induction rows as [|r rows IH] using rev_ind; [done|].
  rewrite fmap_app. intros (Hnd & Hnot & _)%NoDup_app.
  rewrite dedupe_snoc, IH by done. case_bool_decide as Hin; [|done].
  destruct (Hnot _ Hin). apply list_elem_of_here.
Qed.

(** C8. Deduplication is idempotent and keeps the rows in the order in
    which they were seen: a row stays exactly when no earlier row has the
    same (match, tip) pair, so each pair is kept once, at its first
    occurrence. *)
Theorem dedupe_idempotent_first_seen (x : list Ticket) :
  dedupe (dedupe x) = dedupe x ∧
  dedupe x = first_occurrences x ∧
  dedupe x `sublist_of` x ∧
  NoDup (key_of <$> dedupe x) ∧
  (∀ k, k ∈ key_of <$> dedupe x ↔ k ∈ key_of <$> x).
Proof.
  split; [apply dedupe_fixed, dedupe_NoDup|].
  split; [apply dedupe_first_occurrences|].
  split; [apply dedupe_sublist|].
  split; [apply dedupe_NoDup|apply dedupe_keys].
Qed.

End Dedupe.

(** The theorem at a row where the first two probabilities tie. *)
Lemma tip_is_argmax_witness :
  let cells := [py "Sparta"; py "Slavia"; py "40%"; py "40%"; py "35%"] in
  let ticket := mkTicket (py "Sparta – Slavia") (py "1") 40 40 35 in
  @extract_row ascii_only cells = Ok (Some ticket) ∧
  tip ticket = argmax_1X2 (p1 ticket) (pX ticket) (p2 ticket).
Proof.
  split; [reflexivity|].
  apply (proj2 (@tip_is_argmax ascii_only
                  [py "Sparta"; py "Slavia"; py "40%"; py "40%"; py "35%"])
               (mkTicket (py "Sparta – Slavia") (py "1") 40 40 35)).
  reflexivity.
Defined.



(** The theorem at a table whose second row holds the three percent
    cells. *)
Lemma is_quicktips_table_iff_witness :
  let table := [[py "Zápas"; py "1"; py "X"; py "2"];
                [py "12.10"; py "Slavia"; py "40%"; py "25%"; py "35%"; py "20:00"]] in
  @is_quicktips_table ascii_only table = true.
Proof.
  apply (proj2 (proj1 (@is_quicktips_table_iff ascii_only
    [[py "Zápas"; py "1"; py "X"; py "2"];
     [py "12.10"; py "Slavia"; py "40%"; py "25%"; py "35%"; py "20:00"]]))).
  exists [py "12.10"; py "Slavia"; py "40%"; py "25%"; py "35%"; py "20:00"].
  split; [apply list_elem_of_further, list_elem_of_here|].
  split; [simpl; lia|].
  exists 2%nat, (py "40%"), (py "25%"), (py "35%"). repeat split; reflexivity.
Defined.

(** C5 as it was worded fails in both directions.  Each cell "150% 20%"
    holds the number 20 followed by a percent sign, yet the leftmost
    match is 150 and the table is not taken; each cell "1000%" holds
    the number 1000 only, yet the match is "000" and the table is
    taken. *)
Lemma is_quicktips_table_not_as_worded :
  ∃ t1 t2 : Table,
    t1 = [[py "Sparta"; py "Slavia"; py "150% 20%"; py "150% 25%"; py "150% 35%"]] ∧
    t2 = [[py "Sparta"; py "Slavia"; py "1000%"; py "1000%"; py "1000%"]] ∧
    ∀ U : Unicode,
      (spec_probability_table t1 = true ∧ is_quicktips_table t1 = false) ∧
      (spec_probability_table t2 = false ∧ is_quicktips_table t2 = true) ∧
      parse_percent (py "150% 20%") = None ∧
      parse_percent (py "1000%") = Some 0%Z.
Proof.
  eexists _, _. split; [reflexivity|]. split; [reflexivity|].
  intros U. by vm_compute.
Qed.

Section Output.
Context {U : Unicode}.
Local Open Scope nat_scope.

Lemma scan_row_cases tds :
  scan_row tds = Ok None ∨
  ∃ t, scan_row tds = Ok (Some t) ∧
       tip t = argmax_1X2 (p1 t) (pX t) (p2 t) ∧
       (0 ≤ p1 t ≤ 100)%Z ∧ (0 ≤ pX t ≤ 100)%Z ∧ (0 ≤ p2 t ≤ 100)%Z.
Proof.
  unfold scan_row. destruct (length tds <? 5); [by left|].
  pose proof percent_or_0_range as Hr.
  destruct (extract_row_spec (map normspace tds))
    as [[_ ->]|(i & rest & c1 & cX & c2 & _ & _ & _ & _ & _ & _ & _ & ->)];
    [by left|right].
  eexists. split; [reflexivity|]. simpl. auto.
Qed.

Lemma scan_rows_spec trs rows_out :
  ∃ out, scan_rows trs rows_out = Ok (rows_out ++ out) ∧
         ∀ t, t ∈ out → ∃ tr, tr ∈ trs ∧ scan_row tr = Ok (Some t).
Proof.
  revert rows_out. induction trs as [|tr trs IH]; intros rows_out; simpl.
  - exists []. rewrite app_nil_r. split; [done|]. by intros t ?%elem_of_nil.
  - destruct (scan_row_cases tr) as [Hr|(t & Hr & _)]; rewrite Hr; simpl.
    + destruct (IH rows_out) as (out & -> & Hout). exists out. split; [done|].
      intros t' (tr' & ? & ?)%Hout. exists tr'. split; [by right|done].
    + destruct (IH (rows_out ++ [t])) as (out & -> & Hout). exists (t :: out).
      split; [by rewrite <- app_assoc|].
      intros t' [->|(tr' & ? & ?)%Hout]%elem_of_cons.
      * exists tr. split; [by left|done].
      * exists tr'. split; [by right|done].
Qed.

Lemma scan_tables_spec tables rows_out :
  ∃ out, scan_tables tables rows_out = Ok (rows_out ++ out) ∧
         ∀ t, t ∈ out →
              ∃ table tr, table ∈ tables ∧ is_quicktips_table table = true ∧
                          tr ∈ table ∧ scan_row tr = Ok (Some t).
Proof.
  revert rows_out. induction tables as [|table tables IH]; intros rows_out; simpl.
  - exists []. rewrite app_nil_r. split; [done|]. by intros t ?%elem_of_nil.
  - destruct (is_quicktips_table table) eqn:Hq.
    + destruct (scan_rows_spec table rows_out) as (out1 & -> & Hout1). simpl.
      destruct (IH (rows_out ++ out1)) as (out2 & -> & Hout2).
      exists (out1 ++ out2). split; [by rewrite <- app_assoc|].
      intros t [(tr & ? & ?)%Hout1|(table' & tr & ? & ? & ? & ?)%Hout2]%elem_of_app.
      * exists table, tr. repeat split; [by left|done..].
      * exists table', tr. repeat split; [by right|done..].
    + destruct (IH rows_out) as (out & -> & Hout). exists out. split; [done|].
      intros t (table' & tr & ? & ? & ? & ?)%Hout.
      exists table', tr. repeat split; [by right|done..].
Qed.

(** [parse_quicktips] never raises, and every ticket it returns comes
    from a row of a table taken for a QuickTips table, carries the tip of
    its largest probability and three probabilities in [0,100]; no two
    tickets share the pair (match, tip). *)
Theorem parse_quicktips_sound (html : Document) :
  ∃ tickets,
    parse_quicktips html = Ok tickets ∧
    NoDup (key_of <$> tickets) ∧
    ∀ t, t ∈ tickets →
         (∃ table tr, table ∈ html ∧ is_quicktips_table table = true ∧
                      tr ∈ table ∧ scan_row tr = Ok (Some t)) ∧
         tip t = argmax_1X2 (p1 t) (pX t) (p2 t) ∧
         (0 ≤ p1 t ≤ 100)%Z ∧ (0 ≤ pX t ≤ 100)%Z ∧ (0 ≤ p2 t ≤ 100)%Z.
Proof.
  unfold parse_quicktips.
  destruct (scan_tables_spec html []) as (out & -> & Hout). simpl.
  exists (dedupe out). split; [done|]. split; [apply dedupe_NoDup|].
  intros t Ht. pose proof (elem_of_sublist _ _ _ Ht (dedupe_sublist out)) as Hin.
  destruct (Hout t Hin) as (table & tr & Htable & Hq & Htr & Hrow).
  split; [by exists table, tr|].
  destruct (scan_row_cases tr) as [Hnone|(t' & Hsome & Hprops)]; [congruence|].
  rewrite Hrow in Hsome. by injection Hsome as ->.
Qed.

End Output.

Section Teams.
Context {U : Unicode}.
Local Open Scope nat_scope.

Lemma dedup_step_neighbours dedup c :
  neighbours_differ dedup → neighbours_differ (dedup_step dedup c).
Proof.
  intros Hd. unfold dedup_step.
  destruct (last dedup) as [d|] eqn:Hlast.
  - case_bool_decide as Hne; [|done].
    intros i a b Ha Hb.
    destruct (decide (S i < length dedup)) as [Hlt|Hge].
    + rewrite lookup_app_l in Ha by lia. rewrite lookup_app_l in Hb by lia. eauto.
    + assert (S i = length dedup) as Hi.
      { apply lookup_lt_Some in Hb. rewrite length_app in Hb. simpl in Hb. lia. }
      rewrite lookup_app_l in Ha by lia.
      rewrite lookup_app_r, Hi, Nat.sub_diag in Hb by lia. simpl in Hb.
      rewrite last_lookup, <- Hi in Hlast. simpl in Hlast. congruence.
  - apply last_None in Hlast as ->. intros i a b Ha Hb. by destruct i.
Qed.

Lemma dedup_fold_neighbours candidates acc :
  neighbours_differ acc → neighbours_differ (fold_left dedup_step candidates acc).
Proof.
  revert acc. induction candidates as [|c cs IH]; intros acc Hacc; simpl; [done|].
  by apply IH, dedup_step_neighbours.
Qed.

Lemma dedup_fold_elem candidates acc x :
  x ∈ fold_left dedup_step candidates acc → x ∈ acc ∨ x ∈ candidates.
Proof.
  revert acc. induction candidates as [|c cs IH]; intros acc; simpl; [by left|].
  intros [Hx|Hx]%IH; [|right; by right].
  unfold dedup_step in Hx. destruct (last acc); [case_bool_decide|].
  - apply elem_of_app in Hx as [?| ->%list_elem_of_singleton]; [by left|right; by left].
  - by left.
  - apply elem_of_app in Hx as [?| ->%list_elem_of_singleton]; [by left|right; by left].
Qed.

Lemma dedup_of_neighbours candidates : neighbours_differ (dedup_of candidates).
Proof. apply dedup_fold_neighbours. intros i a b Ha. done. Qed.

(** A candidate reads like a team name; in particular it is not empty. *)
Lemma team_candidates_plausible cells perc_indices c :
  c ∈ team_candidates cells perc_indices → plausible_team_text c = true.
Proof.
  intros [Hc|Hc]%dedup_fold_elem; [by apply elem_of_nil in Hc|].
  apply list_elem_of_omap in Hc as ([i x] & _ & Hf). simpl in Hf.
  case_bool_decide; [done|].
  destruct (plausible_team_text (normspace x)) eqn:Hp; by simplify_eq.
Qed.

Lemma plausible_team_text_nonempty c : plausible_team_text c = true → c ≠ [].
Proof. by intros Hp ->. Qed.

(** The choice among candidates that differ from their neighbours. *)
Lemma choose_teams_spec dedup home away :
  neighbours_differ dedup → (∀ c, c ∈ dedup → c ≠ []) →
  choose_teams dedup = Some (home, away) →
  head dedup = Some home ∧
  (2 ≤ length dedup → away ∈ dedup ∧ lower away ≠ lower home) ∧
  (length dedup = 1 → away = home).
Proof.
  intros Hadj Hne. destruct dedup as [|h tl]; [done|]. unfold choose_teams.
  intros [= <- <-]. split; [done|]. split.
  - intros Hlen. destruct tl as [|d1 tl]; [simpl in Hlen; lia|].
    assert (Hd1 : lower d1 ≠ lower h).
    { intros Heq. by apply (Hadj 0 h d1). }
    destruct (find _ (reverse (h :: d1 :: tl))) as [c|] eqn:Hfind.
    + apply find_some in Hfind as [Hin Hc]. apply bool_decide_eq_true in Hc.
      apply list_elem_of_In in Hin. apply (proj1 (elem_of_reverse _ _)) in Hin.
      destruct c as [|c0 c]; [by destruct (Hne _ Hin)|]. done.
    + exfalso. assert (Hin : In d1 (reverse (h :: d1 :: tl))).
      { apply list_elem_of_In. apply (proj2 (elem_of_reverse _ _)). set_solver. }
      pose proof (find_none _ _ Hfind d1 Hin) as Hf.
      by apply bool_decide_eq_false in Hf.
  - intros Hlen. destruct tl; [|done]. simpl.
    by rewrite bool_decide_eq_false_2 by (by intros []).
Qed.

(** C9. When at least two candidates are left after the noise filter
    and the removal of neighbouring repetitions, the away side differs
    from the home side up to case: it is a candidate found by the search
    from the end, never the fallback.  The two sides are the same only
    when exactly one candidate is left. *)
Theorem away_differs_from_home cells perc_indices home away :
  choose_teams (team_candidates cells perc_indices) = Some (home, away) →
  (2 ≤ length (team_candidates cells perc_indices) → lower away ≠ lower home) ∧
  (lower away = lower home → length (team_candidates cells perc_indices) = 1) ∧
  (away = home → length (team_candidates cells perc_indices) = 1) ∧
  (length (team_candidates cells perc_indices) = 1 → away = home).
Proof.
  intros Hchoose.
  destruct (choose_teams_spec (team_candidates cells perc_indices) _ _
              (dedup_of_neighbours _)
              (λ c Hc, plausible_team_text_nonempty c
                         (team_candidates_plausible cells perc_indices c Hc))
              Hchoose) as (Hhead & Hmany & Hone).
  assert (Hpos : 1 ≤ length (team_candidates cells perc_indices)).
  { destruct (team_candidates cells perc_indices); [done|simpl; lia]. }
  split; [intros Hlen; by destruct (Hmany Hlen)|]. split; [|split; [|done]].
  - intros Heq.
    destruct (decide (length (team_candidates cells perc_indices) = 1)); [done|].
    destruct Hmany as [_ Hne]; [lia|]. done.
  - intros ->.
    destruct (decide (length (team_candidates cells perc_indices) = 1)); [done|].
    destruct Hmany as [_ Hne]; [lia|]. done.
Qed.

End Teams.

(** The theorem at a row with a repeated home cell and a second team. *)
Lemma away_differs_from_home_witness :
  let cells := [py "Sparta"; py "SPARTA"; py "Slavia"; py "40%"; py "25%"; py "35%"] in
  @team_candidates ascii_only cells [3; 4; 5]%nat = [py "Sparta"; py "Slavia"] ∧
  @lower ascii_only (py "Slavia") ≠ @lower ascii_only (py "Sparta").
Proof.
  split; [reflexivity|].
  apply (@away_differs_from_home ascii_only
           [py "Sparta"; py "SPARTA"; py "Slavia"; py "40%"; py "25%"; py "35%"]
           [3; 4; 5]%nat (py "Sparta") (py "Slavia"));
    [reflexivity | vm_compute; lia].
Defined.

End QuicktipsFacts.

(* ===================================================================== *)
(** * Properties of the evaluator                                          *)
(* ===================================================================== *)

Module EvaluateFacts.
Import Py Evaluate.

Section Strings.
Local Open Scope nat_scope.

(** ** [replace] *)

Lemma replace_absent old new s : contains old s = false → replace old new s = s.
Proof.
  unfold replace. induction s as [|c s IH]; [done|].
  cbn [contains replace_from]. intros [Hstart Hrest]%orb_false_iff.
  rewrite Hstart. f_equal. by apply IH.
Qed.

Lemma replace_from_length old skip s :
  length (replace_from old [] skip s) ≤ length s.
Proof.
  revert skip. induction s as [|c s IH]; intros skip; [done|].
  cbn [replace_from]. destruct skip as [|k].
  - destruct (startswith old (c :: s)); simpl.
    + specialize (IH (length old - 1)). lia.
    + specialize (IH 0). lia.
  - specialize (IH k). simpl. lia.
Qed.

Lemma replace_present_shorter old s :
  old ≠ [] → contains old s = true → length (replace old [] s) < length s.
Proof.
  intros Hold. unfold replace. induction s as [|c s IH].
  - by destruct old.
  - cbn [contains replace_from]. destruct (startswith old (c :: s)) eqn:Hstart.
    + intros _. pose proof (replace_from_length old (length old - 1) s).
      simpl. lia.
    + simpl. intros Hc. specialize (IH Hc). lia.
Qed.

(** ** [re.sub] of runs *)

Lemma sub_runs_absent cls by_ s :
  Forall (λ c, cls c = false) s → sub_runs cls by_ s = s.
Proof.
  unfold sub_runs. induction 1 as [|c s Hc _ IH]; [done|].
  cbn [sub_runs_from]. rewrite Hc. by f_equal.
Qed.

Lemma sub_runs_from_length cls c0 in_run s :
  length (sub_runs_from cls [c0] in_run s) ≤ length s.
Proof.
  revert in_run. induction s as [|c s IH]; intros in_run; [done|].
  cbn [sub_runs_from]. destruct (cls c); [destruct in_run|]; simpl.
  - specialize (IH true). lia.
  - specialize (IH true). lia.
  - specialize (IH false). lia.
Qed.

Lemma sub_runs_from_Forall (P : char → Prop) cls by_ in_run s :
  Forall P by_ → (∀ c, cls c = false → P c) →
  Forall P (sub_runs_from cls by_ in_run s).
Proof.
  intros Hby HP. revert in_run. induction s as [|c s IH]; intros in_run; [done|].
  cbn [sub_runs_from]. destruct (cls c) eqn:Hc; [destruct in_run|].
  - apply IH.
  - apply Forall_app. split; [done|apply IH].
  - constructor; [by apply HP|apply IH].
Qed.

Lemma sub_runs_from_kept (P : char → Prop) cls by_ in_run s :
  Forall P by_ → Forall P s → Forall P (sub_runs_from cls by_ in_run s).
Proof.
  intros Hby Hs. revert in_run. induction Hs as [|c s Hc _ IH]; intros in_run; [done|].
  cbn [sub_runs_from]. destruct (cls c); [destruct in_run|].
  - apply IH.
  - apply Forall_app. split; [done|apply IH].
  - constructor; [done|apply IH].
Qed.

(** ** [strip] *)

Lemma lstrip_length s : length (lstrip s) ≤ length s.
Proof. induction s as [|c s IH]; simpl; [done|]. destruct (isspace c); simpl; lia. Qed.

Lemma lstrip_suffix s : ∃ w, s = w ++ lstrip s.
Proof.
  induction s as [|c s [w IH]]; [by exists []|]. simpl.
  destruct (isspace c); [|by exists []]. exists (c :: w). simpl. by f_equal.
Qed.

Lemma lstrip_idemp s : lstrip (lstrip s) = lstrip s.
Proof.
  induction s as [|c s IH]; [done|]. simpl.
  destruct (isspace c) eqn:Hc; [done|]. simpl. by rewrite Hc.
Qed.

Lemma rstrip_prefix s : ∃ w, s = rstrip s ++ w.
Proof.
  unfold rstrip. destruct (lstrip_suffix (reverse s)) as [w Hw].
  exists (reverse w). rewrite <- reverse_app, <- Hw. by rewrite reverse_involutive.
Qed.

Lemma strip_length s : length (strip s) ≤ length s.
Proof.
  unfold strip, rstrip. rewrite length_reverse.
  pose proof (lstrip_length (reverse (lstrip s))) as H1.
  rewrite length_reverse in H1. pose proof (lstrip_length s). lia.
Qed.

(** A prefix of an [lstrip]ped string is [lstrip]ped. *)
Lemma lstrip_fixed_prefix a w : lstrip (a ++ w) = a ++ w → lstrip a = a.
Proof.
  destruct a as [|c a]; [done|]. simpl.
  destruct (isspace c); [|done]. intros H.
  pose proof (lstrip_length (a ++ w)) as Hlen. rewrite H in Hlen. simpl in Hlen. lia.
Qed.

Lemma strip_trimmed s :
  lstrip (strip s) = strip s ∧ lstrip (reverse (strip s)) = reverse (strip s).
Proof.
  split.
  - destruct (rstrip_prefix (lstrip s)) as [w Hw]. unfold strip.
    apply (lstrip_fixed_prefix _ w). rewrite <- Hw. apply lstrip_idemp.
  - unfold strip, rstrip. rewrite reverse_involutive. apply lstrip_idemp.
Qed.

Lemma strip_fixed s : lstrip s = s → lstrip (reverse s) = reverse s → strip s = s.
Proof.
  intros Hl Hr. unfold strip, rstrip. rewrite Hl, Hr. apply reverse_involutive.
Qed.

Lemma strip_Forall (P : char → Prop) s : Forall P s → Forall P (strip s).
Proof.
  intros Hs. unfold strip.
  destruct (lstrip_suffix s) as [w1 H1].
  destruct (rstrip_prefix (lstrip s)) as [w2 H2].
  rewrite H1, H2 in Hs. by apply Forall_app in Hs as [_ [? _]%Forall_app].
Qed.

(** ** Single spacing *)

Lemma single_spaced_weaken b s : single_spaced b s = true → single_spaced false s = true.
Proof. destruct s as [|c s]; [done|]. simpl. destruct (isspace c), b; done. Qed.

Lemma single_spaced_lstrip b s :
  single_spaced b s = true → single_spaced false (lstrip s) = true.
Proof.
  revert b. induction s as [|c s IH]; intros b; [done|]. simpl.
  destruct (isspace c) eqn:Hc.
  - intros [_ H]%andb_true_iff. by apply (IH true).
  - intros H. simpl. by rewrite Hc.
Qed.

Lemma single_spaced_prefix b a w :
  single_spaced b (a ++ w) = true → single_spaced b a = true.
Proof.
  revert b. induction a as [|c a IH]; intros b; [done|]. simpl.
  destruct (isspace c).
  - intros [-> H]%andb_true_iff. simpl. by apply IH.
  - apply IH.
Qed.

Lemma single_spaced_strip b s :
  single_spaced b s = true → single_spaced false (strip s) = true.
Proof.
  intros H%single_spaced_lstrip. unfold strip.
  destruct (rstrip_prefix (lstrip s)) as [w Hw]. rewrite Hw in H.
  by apply single_spaced_prefix in H.
Qed.

Lemma sub_runs_from_single_spaced b s :
  single_spaced b (sub_runs_from isspace (py " ") b s) = true.
Proof.
  revert b. induction s as [|c s IH]; intros b; [done|].
  cbn [sub_runs_from]. destruct (isspace c) eqn:Hc; [destruct b|].
  - apply IH.
  - change (py " " ++ ?r) with (32%N :: r). cbn [single_spaced].
    change (isspace 32) with true. simpl. apply IH.
  - cbn [single_spaced]. rewrite Hc. apply IH.
Qed.

Lemma canonical_space c : canonical_char c = true → isspace c = true → c = 32%N.
Proof.
  unfold canonical_char, isspace, in_range. eval_ord. intros Hc Hs.
  split_ranges; lia.
Qed.

Lemma sub_runs_from_spaces_fixed b s :
  Forall (λ c, canonical_char c = true) s → single_spaced b s = true →
  sub_runs_from isspace (py " ") b s = s.
Proof.
  intros Hs. revert b. induction Hs as [|c s Hc _ IH]; intros b; [done|].
  cbn [sub_runs_from single_spaced]. destruct (isspace c) eqn:Hsp.
  - intros [->%negb_true_iff H]%andb_true_iff.
    rewrite (canonical_space c Hc Hsp). change (py " " ++ ?r) with (32%N :: r).
    f_equal. by apply IH.
  - intros H. f_equal. by apply IH.
Qed.

End Strings.
Section Normalize.
Context {U : Unicode}.
Local Open Scope nat_scope.

Lemma canonical_char_ascii_lower c :
  canonical_char c = true → is_ascii c = true ∧ lower_ascii c = c.
Proof.
  unfold canonical_char, is_ascii, lower_ascii, in_range. eval_ord. intros Hc.
  assert (c < 128 ∧ ¬ (65 ≤ c ≤ 90))%N as [Hlt Hup] by (split_ranges; lia).
  split; [by apply N.ltb_lt|].
  destruct (65 <=? c)%N eqn:H1, (c <=? 90)%N eqn:H2; simpl; try done;
    split_ranges; lia.
Qed.

Lemma lower_canonical s :
  Forall (λ c, canonical_char c = true) s → lower s = s.
Proof.
  intros Hs. unfold lower.
  assert (Hascii : forallb is_ascii s = true).
  { apply forallb_forall. intros c Hin. apply list_elem_of_In in Hin.
    rewrite Forall_forall in Hs. by apply canonical_char_ascii_lower, Hs. }
  rewrite Hascii. induction Hs as [|c s Hc _ IH]; [done|]. simpl in *.
  apply andb_true_iff in Hascii as [_ Hascii].
  rewrite IH by done. f_equal. by apply canonical_char_ascii_lower.
Qed.

(** A normalized name has the canonical shape. *)
Lemma normalize_canonical x : canonical (normalize_team_name (Str x)).
Proof.
  unfold normalize_team_name, canonical.
  set (w := replace _ _ (replace _ _ (replace _ _ (replace _ _ (lower x))))).
  set (z1 := sub_runs (λ c, negb (canonical_char c)) (py " ") w).
  assert (H1 : Forall (λ c, canonical_char c = true) z1).
  { apply sub_runs_from_Forall; [by repeat constructor|].
    intros c Hc. by apply negb_false_iff. }
  set (z2 := sub_runs isspace (py " ") z1).
  assert (H2 : Forall (λ c, canonical_char c = true) z2).
  { apply sub_runs_from_kept; [by repeat constructor|done]. }
  assert (H3 : single_spaced false z2 = true) by apply sub_runs_from_single_spaced.
  split; [by apply strip_Forall|]. split; [by eapply single_spaced_strip|].
  apply strip_trimmed.
Qed.

Lemma normalize_length y :
  let r1 := replace (py " fc") [] (lower y) in
  let r2 := replace (py "cf ") [] r1 in
  let r3 := replace (py " sc") [] r2 in
  let r4 := replace (py " afc") [] r3 in
  length (normalize_team_name (Str y)) ≤ length r4.
Proof.
  intros r1 r2 r3 r4. unfold normalize_team_name. fold r1 r2 r3 r4.
  etrans; [apply strip_length|].
  etrans; [apply (sub_runs_from_length isspace 32%N)|].
  apply (sub_runs_from_length _ 32%N).
Qed.

(** C1, as the code has it.  Normalizing a normalized name changes
    nothing exactly when none of the four club tokens is left in it. *)
Theorem normalize_idempotent_iff (x : pystr) :
  let y := normalize_team_name (Str x) in
  normalize_team_name (Str y) = y ↔
  ∀ tok, tok ∈ club_tokens → contains tok y = false.
Proof.
  intros y. destruct (normalize_canonical x) as (Hchars & Hsp & Hl & Hr).
  fold y in Hchars, Hsp, Hl, Hr.
  pose proof (lower_canonical y Hchars) as Hlow.
  split.
  - intros Hfix.
    pose proof (normalize_length y) as Hlen. cbv zeta in Hlen.
    rewrite Hfix, Hlow in Hlen.
    pose proof (replace_from_length (py " fc") 0 y) as L1.
    pose proof (replace_from_length (py "cf ") 0 (replace (py " fc") [] y)) as L2.
    pose proof (replace_from_length (py " sc") 0
                  (replace (py "cf ") [] (replace (py " fc") [] y))) as L3.
    pose proof (replace_from_length (py " afc") 0
                  (replace (py " sc") []
                     (replace (py "cf ") [] (replace (py " fc") [] y)))) as L4.
    fold (replace (py " fc") [] y) in L1.
    fold (replace (py "cf ") [] (replace (py " fc") [] y)) in L2.
    fold (replace (py " sc") [] (replace (py "cf ") [] (replace (py " fc") [] y))) in L3.
    fold (replace (py " afc") []
            (replace (py " sc") []
               (replace (py "cf ") [] (replace (py " fc") [] y)))) in L4.
    assert (C1 : contains (py " fc") y = false).
    { destruct (contains (py " fc") y) eqn:Hc; [|done].
      apply replace_present_shorter in Hc; [lia|done]. }
    rewrite (replace_absent _ _ _ C1) in *.
    assert (C2 : contains (py "cf ") y = false).
    { destruct (contains (py "cf ") y) eqn:Hc; [|done].
      apply replace_present_shorter in Hc; [lia|done]. }
    rewrite (replace_absent _ _ _ C2) in *.
    assert (C3 : contains (py " sc") y = false).
    { destruct (contains (py " sc") y) eqn:Hc; [|done].
      apply replace_present_shorter in Hc; [lia|done]. }
    rewrite (replace_absent _ _ _ C3) in *.
    assert (C4 : contains (py " afc") y = false).
    { destruct (contains (py " afc") y) eqn:Hc; [|done].
      apply replace_present_shorter in Hc; [lia|done]. }
    intros tok Htok. unfold club_tokens in Htok.
    repeat (apply elem_of_cons in Htok as [->|Htok]; [done|]).
    by apply elem_of_nil in Htok.
  - intros Hno. unfold normalize_team_name. rewrite Hlow.
    rewrite (replace_absent (py " fc")) by (apply Hno; set_solver).
    rewrite (replace_absent (py "cf ")) by (apply Hno; set_solver).
    rewrite (replace_absent (py " sc")) by (apply Hno; set_solver).
    rewrite (replace_absent (py " afc")) by (apply Hno; set_solver).
    rewrite (sub_runs_absent (λ c, negb (canonical_char c))).
    2:{ apply Forall_impl with (1 := Hchars). intros c Hc. by rewrite Hc. }
    unfold sub_runs. rewrite sub_runs_from_spaces_fixed by done.
    by apply strip_fixed.
Qed.

End Normalize.

(** The theorem at "AC Milan FC", whose normalized name "ac milan" holds
    no club token. *)
Lemma normalize_idempotent_iff_witness :
  @normalize_team_name ascii_only (Str (py "AC Milan FC")) = py "ac milan" ∧
  @normalize_team_name ascii_only
    (Str (@normalize_team_name ascii_only (Str (py "AC Milan FC"))))
  = @normalize_team_name ascii_only (Str (py "AC Milan FC")).
Proof.
  split; [reflexivity|].
  apply (proj2 (@normalize_idempotent_iff ascii_only (py "AC Milan FC"))).
  intros tok Htok. unfold club_tokens in Htok.
  repeat (apply elem_of_cons in Htok as [->|Htok]; [reflexivity|]).
  by apply elem_of_nil in Htok.
Defined.

(** C1 as stated fails: punctuation in front of a token is turned into a
    space only after the tokens were deleted, so the first pass leaves
    "a fc" of "a-fc" and the second pass deletes its " fc". *)
Lemma normalize_not_idempotent :
  ∃ x, x = py "a-fc" ∧
    ∀ U : Unicode,
      normalize_team_name (Str x) = py "a fc" ∧
      normalize_team_name (Str (normalize_team_name (Str x))) = py "a" ∧
      normalize_team_name (Str (normalize_team_name (Str x)))
      ≠ normalize_team_name (Str x).
Proof.
  exists (py "a-fc"). split; [reflexivity|]. intros U.
  split; [reflexivity|]. split; [reflexivity|]. by vm_compute.
Qed.

Section Outcome.

Lemma status_done_true m :
  status_done m = true ↔
  (get_status m = Some (py "FINISHED") ∨ get_status m = Some (py "AWARDED")) ∧
  is_Some (get_home (fullTime_of m)).
Proof.
  unfold status_done. rewrite andb_true_iff, bool_decide_eq_true.
  destruct (get_status m) as [st|].
  - rewrite orb_true_iff, !bool_decide_eq_true. split.
    + intros [[->| ->] ?]; auto.
    + intros [[[= ->]|[= ->]] ?]; auto.
  - split; [by intros [? _]|]. by intros [[?|?] _].
Qed.

(** C2. The outcome of a ticket paired with a record is "?" unless the
    record is final, that is, its status is FINISHED or AWARDED and both
    full-time goal counts are there; a SCHEDULED record gives "?" whatever
    its goals.  A final record gives "1", "2" or "X" as the home side
    scored more, fewer or as many goals as the away side. *)
Theorem resolve_outcome (m : ResultRecord) :
  (∀ hg ag, final m hg ag →
     resolve m = if ag <? hg then py "1" else if hg <? ag then py "2" else py "X") ∧
  ((∀ hg ag, ¬ final m hg ag) → resolve m = py "?") ∧
  (get_status m = Some (py "SCHEDULED") → resolve m = py "?") ∧
  (∀ tip t, snd (fst (judge tip (Some m) t)) = resolve m).
Proof.
  split; [|split; [|split]].
  - intros hg ag (Hst & Hh & Ha). unfold resolve.
    rewrite (proj2 (status_done_true m)) by (rewrite Hh; eauto).
    unfold decide_outcome_1x2. by rewrite Hh, Ha.
  - intros Hnot. unfold resolve. destruct (status_done m) eqn:Hdone; [|done].
    apply status_done_true in Hdone as [Hst [hg Hh]].
    unfold decide_outcome_1x2. rewrite Hh.
    destruct (get_away (fullTime_of m)) as [ag|] eqn:Ha; [|done].
    by destruct (Hnot hg ag).
  - intros Hst. unfold resolve. destruct (status_done m) eqn:Hdone; [|done].
    apply status_done_true in Hdone as [[Hf|Hf] _]; rewrite Hst in Hf;
      by vm_compute in Hf.
  - intros tip t. unfold judge, resolve.
    destruct (status_done m); [|done]. by case_bool_decide.
Qed.

(** The theorem at a SCHEDULED record that carries goals all the same. *)
Lemma resolve_outcome_witness :
  let m := {| get_status := Some (py "SCHEDULED");
              get_homeTeam := None; get_awayTeam := None;
              get_score := Some {| get_fullTime :=
                Some {| get_home := Some 2; get_away := Some 1 |} |} |} in
  get_status m = Some (py "SCHEDULED") ∧ resolve m = py "?".
Proof.
  split; [reflexivity|].
  apply (proj1 (proj2 (proj2 (resolve_outcome
    {| get_status := Some (py "SCHEDULED");
       get_homeTeam := None; get_awayTeam := None;
       get_score := Some {| get_fullTime :=
         Some {| get_home := Some 2; get_away := Some 1 |} |} |})))).
  reflexivity.
Defined.

End Outcome.

Section Matcher.
Context {U : Unicode}.
Variable token_sort_ratio : pystr → pystr → Z.
Hypothesis ratio_nonneg : ∀ a b, (0 ≤ token_sort_ratio a b)%Z.

Abbreviation score := (match_score token_sort_ratio).
Abbreviation find_best_match := (find_best_match token_sort_ratio).
Abbreviation best_step := (best_step token_sort_ratio).
Abbreviation best_of := (best_of token_sort_ratio).

Lemma Qlt_bool_true x y : Qlt_bool x y = true ↔ (x < y)%Q.
Proof.
  unfold Qlt_bool. rewrite negb_true_iff. split.
  - intros H. apply Qnot_le_lt. intros Hle%Qle_bool_iff. congruence.
  - intros Hlt. destruct (Qle_bool y x) eqn:Hle; [|done].
    apply Qle_bool_iff in Hle. by destruct (Qlt_not_le _ _ Hlt).
Qed.

Lemma Qlt_bool_false x y : Qlt_bool x y = false ↔ (y <= x)%Q.
Proof.
  unfold Qlt_bool. rewrite negb_false_iff. apply Qle_bool_iff.
Qed.

Lemma match_score_half match_name m :
  ∃ n, (0 ≤ n)%Z ∧ score match_name m = Qmake n 2.
Proof.
  unfold match_score. destruct (split_match match_name) as [home_csv away_csv].
  eexists. split; [|reflexivity].
  pose proof (ratio_nonneg (normalize_team_name (Str home_csv))
                (normalize_team_name (name_of (get_homeTeam m)))).
  pose proof (ratio_nonneg (normalize_team_name (Str away_csv))
                (normalize_team_name (name_of (get_awayTeam m)))).
  lia.
Qed.

Lemma match_score_nonneg match_name m : (Qmake (-1) 1 < score match_name m)%Q.
Proof.
  destruct (match_score_half match_name m) as (n & Hn & ->).
  unfold Qlt. simpl. lia.
Qed.

Lemma best_step_best_of match_name seen st m :
  best_of match_name seen st →
  best_of match_name (seen ++ [m]) (best_step match_name st m).
Proof.
  intros [[-> ->]|(b & -> & Hb & Hmax)]; unfold Evaluate.best_step; simpl.
  - rewrite (proj2 (Qlt_bool_true _ _) (match_score_nonneg match_name m)).
    right. exists m. split; [done|]. split; [set_solver|].
    intros m' ->%list_elem_of_singleton. apply Qle_refl.
  - right. destruct (Qlt_bool _ _) eqn:Hlt.
    + apply Qlt_bool_true in Hlt. exists m. split; [done|]. split; [set_solver|].
      intros m' [Hm'| ->%list_elem_of_singleton]%elem_of_app; [|apply Qle_refl].
      apply Qle_trans with (score match_name b); [by apply Hmax|].
      by apply Qlt_le_weak.
    + apply Qlt_bool_false in Hlt. exists b. split; [done|]. split; [set_solver|].
      intros m' [Hm'| ->%list_elem_of_singleton]%elem_of_app; [by apply Hmax|done].
Qed.

Lemma best_fold_best_of match_name seen results st :
  best_of match_name seen st →
  best_of match_name (seen ++ results) (fold_left (best_step match_name) results st).
Proof.
  revert seen st. induction results as [|m results IH]; intros seen st Hst; simpl.
  - by rewrite app_nil_r.
  - replace (seen ++ m :: results) with ((seen ++ [m]) ++ results)
      by (by rewrite <- app_assoc).
    by apply IH, best_step_best_of.
Qed.

Lemma int_of_half n : (0 ≤ n)%Z → int_of (Qmake n 2) = Qfloor (Qmake n 2).
Proof. intros Hn. unfold int_of, Qfloor. simpl. by apply Z.quot_div_nonneg. Qed.

(** C4. No record is returned when every candidate scores below 70, an
    empty list included: the second component is then the best score
    rounded down, 0 for the empty list.  A record that is returned is a
    best candidate and scores at least 70. *)
Theorem find_best_match_threshold (match_name : pystr) (results : list ResultRecord) :
  find_best_match match_name [] = (None, 0%Z) ∧
  ((∀ m, m ∈ results → (score match_name m < FUZZY_THRESHOLD)%Q) →
   fst (find_best_match match_name results) = None ∧
   (results ≠ [] →
    ∃ m, m ∈ results ∧
         (∀ m', m' ∈ results → (score match_name m' <= score match_name m)%Q) ∧
         snd (find_best_match match_name results) = Qfloor (score match_name m))) ∧
  (∀ m, fst (find_best_match match_name results) = Some m →
        m ∈ results ∧ (FUZZY_THRESHOLD <= score match_name m)%Q ∧
        (∀ m', m' ∈ results → (score match_name m' <= score match_name m)%Q) ∧
        snd (find_best_match match_name results) = Qfloor (score match_name m)).
Proof.
  split; [reflexivity|].
  pose proof (best_fold_best_of match_name [] results (None, Qmake (-1) 1)
                (or_introl (conj eq_refl eq_refl))) as Hbest.
  simpl in Hbest. unfold Evaluate.find_best_match.
  destruct (fold_left (best_step match_name) results (None, Qmake (-1) 1))
    as [best best_score].
  destruct Hbest as [[-> [= -> ->]]|(b & [= -> ->] & Hb & Hmax)].
  - split; [|by intros m [=]]. intros _. split; [done|]. by intros [].
  - assert (Hshown : int_of (if Qle_bool (Qmake 0 1) (score match_name b)
                             then score match_name b else Qmake 0 1)
                     = Qfloor (score match_name b)).
    { destruct (match_score_half match_name b) as (n & Hn & ->).
      replace (Qle_bool (Qmake 0 1) (Qmake n 2)) with true.
      - by apply int_of_half.
      - symmetry. apply Qle_bool_iff. unfold Qle. simpl. lia. }
    split.
    + intros Hlow. specialize (Hlow b Hb).
      destruct (Qle_bool FUZZY_THRESHOLD (score match_name b)) eqn:Hle.
      { apply Qle_bool_iff in Hle. by destruct (Qlt_not_le _ _ Hlow). }
      simpl. split; [done|]. intros _. by exists b.
    + simpl. destruct (Qle_bool FUZZY_THRESHOLD (score match_name b)) eqn:Hle;
        [|by intros m [=]].
      apply Qle_bool_iff in Hle. by intros m [= <-].
Qed.

End Matcher.

Lemma same_ratio_nonneg a b : (0 ≤ same_ratio a b)%Z.
Proof. unfold same_ratio. case_bool_decide; lia. Qed.

(** The theorem at one record whose away side is spelt differently: the
    score is 50, below the threshold. *)
Lemma find_best_match_threshold_witness :
  let m := {| get_status := Some (py "FINISHED");
              get_homeTeam := Some {| get_name := Some (Str (py "Bayern FC")) |};
              get_awayTeam := Some {| get_name := Some (Str (py "Dortmund")) |};
              get_score := None |} in
  @Evaluate.find_best_match ascii_only same_ratio (py "Bayern – BVB") [m] = (None, 50%Z) ∧
  fst (@Evaluate.find_best_match ascii_only same_ratio (py "Bayern – BVB") [m]) = None.
Proof.
  split; [reflexivity|].
  apply (@find_best_match_threshold ascii_only same_ratio same_ratio_nonneg
           (py "Bayern – BVB")
           [{| get_status := Some (py "FINISHED");
               get_homeTeam := Some {| get_name := Some (Str (py "Bayern FC")) |};
               get_awayTeam := Some {| get_name := Some (Str (py "Dortmund")) |};
               get_score := None |}]).
  intros m' Hm'. apply list_elem_of_singleton in Hm' as ->. reflexivity.
Defined.

Section Floats.
Local Open Scope Z_scope.

(** ** The float of a quotient of at most one *)

Lemma pow2_double k : 1 ≤ k → 2 ^ k = 2 * 2 ^ (k - 1).
Proof. intros Hk. rewrite <- Z.pow_succ_r by lia. f_equal. lia. Qed.

Lemma pow2_small k : k ≤ 0 → 2 ^ k ≤ 1.
Proof.
  intros Hk. destruct (Z.eq_dec k 0) as [->|]; [done|].
  rewrite Z.pow_neg_r by lia. lia.
Qed.

Lemma digits2_pos_bound p k : Zpos p < 2 ^ k → Zpos (digits2_pos p) ≤ k.
Proof.
  revert k. induction p as [p IH|p IH|]; intros k Hk; cbn [digits2_pos];
    (destruct (Z_le_gt_dec k 0) as [Hle|Hgt];
     [pose proof (pow2_small k Hle); lia|]).
  - rewrite pow2_double in Hk by lia. rewrite Pos2Z.inj_succ.
    specialize (IH (k - 1)). lia.
  - rewrite pow2_double in Hk by lia. rewrite Pos2Z.inj_succ.
    specialize (IH (k - 1)). lia.
  - lia.
Qed.

Lemma digits2_pos_upper p : Zpos p < 2 ^ Zpos (digits2_pos p).
Proof.
  induction p as [p IH|p IH|]; cbn [digits2_pos]; [| |done];
    rewrite Pos2Z.inj_succ, Z.pow_succ_r by lia; lia.
Qed.

Lemma Zdigits2_bound m k : 0 ≤ m < 2 ^ k → 0 ≤ k → Zdigits2 m ≤ k.
Proof.
  intros [Hm Hk] Hk0. destruct m as [|p|p]; [done| |lia].
  by apply digits2_pos_bound.
Qed.

Lemma digits2_pos_mono a b : (a ≤ b)%positive → Zpos (digits2_pos a) ≤ Zpos (digits2_pos b).
Proof.
  intros Hab. apply digits2_pos_bound. pose proof (digits2_pos_upper b). lia.
Qed.

Lemma shr_1_bounds mrs : 0 ≤ shr_m mrs → 0 ≤ shr_m (shr_1 mrs) ≤ shr_m mrs.
Proof.
  destruct mrs as [m r s]. cbn [shr_m]. intros Hm.
  destruct m as [|[p|p|]|p]; cbn; lia.
Qed.

Lemma iter_shr_1_bounds p mrs :
  0 ≤ shr_m mrs → 0 ≤ shr_m (SpecFloat.iter_pos shr_1 p mrs) ≤ shr_m mrs.
Proof.
  revert mrs. induction p as [p IH|p IH|]; intros mrs Hm; cbn [SpecFloat.iter_pos].
  - pose proof (shr_1_bounds mrs Hm) as H1.
    pose proof (IH (shr_1 mrs) (proj1 H1)) as H2.
    pose proof (IH _ (proj1 H2)) as H3. lia.
  - pose proof (IH mrs Hm) as H2.
    pose proof (IH _ (proj1 H2)) as H3. lia.
  - by apply shr_1_bounds.
Qed.

Lemma shr_fexp_bounds m e l mrs' e' :
  0 ≤ m → shr_fexp 53 1024 m e l = (mrs', e') →
  0 ≤ shr_m mrs' ≤ m ∧ e' = Z.max e (fexp 53 1024 (Zdigits2 m + e)).
Proof.
  intros Hm. unfold shr_fexp, shr.
  assert (Hrec : shr_m (shr_record_of_loc m l) = m) by (by destruct l as [|[]]).
  destruct (fexp 53 1024 (Zdigits2 m + e) - e) as [|n|n] eqn:Hn; intros [= <- <-].
  - rewrite Hrec. lia.
  - pose proof (iter_shr_1_bounds n (shr_record_of_loc m l)) as H.
    rewrite Hrec in H. lia.
  - rewrite Hrec. lia.
Qed.

Lemma round_nearest_even_bounds m l : m ≤ round_nearest_even m l ≤ m + 1.
Proof. destruct l as [|[]]; cbn; [lia|destruct (Z.even m); lia|lia..]. Qed.

Lemma fexp_le x y : x ≤ y → fexp 53 1024 x ≤ fexp 53 1024 y.
Proof. unfold fexp, emin. lia. Qed.

(** A quotient of at most one is rounded to a finite float or to zero. *)
Lemma binary_round_aux_small sx q k l :
  53 ≤ k ≤ 1074 → 0 ≤ q ≤ 2 ^ k →
  ∀ s, binary_round_aux 53 1024 sx q (- k) l ≠ S754_infinity s.
Proof.
  intros Hk Hq s. unfold binary_round_aux.
  destruct (shr_fexp 53 1024 q (- k) l) as [mrs1 e1] eqn:E1.
  apply shr_fexp_bounds in E1 as [Hm1 He1]; [|lia].
  set (m1 := round_nearest_even (shr_m mrs1) (loc_of_shr_record mrs1)).
  pose proof (round_nearest_even_bounds (shr_m mrs1) (loc_of_shr_record mrs1)) as Hr.
  fold m1 in Hr.
  destruct (shr_fexp 53 1024 m1 e1 loc_Exact) as [mrs2 e2] eqn:E2.
  apply shr_fexp_bounds in E2 as [Hm2 He2]; [|lia].
  assert (Hpow : 2 ^ k + 1 < 2 ^ (k + 1)).
  { replace (k + 1) with (Z.succ k) by lia.
    rewrite Z.pow_succ_r by lia. assert (1 < 2 ^ k); [|lia].
    apply Z.pow_gt_1; lia. }
  assert (Hd : Zdigits2 q ≤ k + 1) by (apply Zdigits2_bound; lia).
  assert (Hd1 : Zdigits2 m1 ≤ k + 1) by (apply Zdigits2_bound; lia).
  assert (He1' : e1 ≤ -52).
  { pose proof (fexp_le (Zdigits2 q + - k) 1 ltac:(lia)) as H.
    unfold fexp, emin in H. unfold fexp, emin in He1. lia. }
  assert (He2' : e2 ≤ 971).
  { unfold fexp, emin in He2. lia. }
  destruct (shr_m mrs2) as [|p|p]; [done| |done].
  replace (e2 <=? 1024 - 53) with true; [done|].
  symmetry. apply Z.leb_le. lia.
Qed.

Lemma SFdiv_le_finite (a b : positive) s :
  (a ≤ b)%positive →
  SFdiv 53 1024 (S754_finite false a 0) (S754_finite false b 0) ≠ S754_infinity s.
Proof.
  intros Hab. unfold SFdiv, SFdiv_core_binary.
  pose proof (digits2_pos_mono a b Hab) as Hd. cbn [Zdigits2].
  set (d1 := Zpos (digits2_pos a)) in *. set (d2 := Zpos (digits2_pos b)) in *.
  assert (Hd1 : 0 < d1) by done.
  set (e' := Z.min (fexp 53 1024 (d1 + 0 - (d2 + 0))) (0 - 0)).
  assert (He : -1074 ≤ e' ≤ -53) by (unfold e', fexp, emin; lia).
  assert (Hs : ∃ n, 0 - 0 - e' = Zpos n).
  { destruct (0 - 0 - e') as [|n|n] eqn:E; [lia|by exists n|lia]. }
  destruct Hs as [n Hn]. rewrite Hn.
  destruct (Z.div_eucl (Z.shiftl (Zpos a) (Zpos n)) (Zpos b)) as [q r] eqn:Ediv.
  assert (Hq : q = Z.shiftl (Zpos a) (Zpos n) / Zpos b).
  { unfold Z.div. by rewrite Ediv. }
  rewrite Z.shiftl_mul_pow2 in Hq by lia.
  replace e' with (- Zpos n) by lia.
  apply binary_round_aux_small; [lia|]. subst q. split.
  - apply Z.div_pos; [|lia]. apply Z.mul_nonneg_nonneg; [lia|]. apply Z.pow_nonneg. lia.
  - apply Z.div_le_upper_bound; [lia|].
    assert (0 < 2 ^ Zpos n) by (apply Z.pow_pos_nonneg; lia). nia.
Qed.

Lemma SFdiv_same (a : positive) :
  SFdiv 53 1024 (S754_finite false a 0) (S754_finite false a 0)
  = S754_finite false 4503599627370496 (-52).
Proof.
  unfold SFdiv, SFdiv_core_binary. cbn [Zdigits2].
  replace (Zpos (digits2_pos a) + 0 - (Zpos (digits2_pos a) + 0)) with 0 by lia.
  change (Z.min (fexp 53 1024 0) (0 - 0)) with (-53).
  change (0 - 0 - -53) with 53.
  destruct (Z.div_eucl (Z.shiftl (Zpos a) 53) (Zpos a)) as [q r] eqn:Ediv.
  assert (Hq : q = Z.shiftl (Zpos a) 53 / Zpos a) by (unfold Z.div; by rewrite Ediv).
  assert (Hr : r = Z.shiftl (Zpos a) 53 mod Zpos a) by (unfold Z.modulo; by rewrite Ediv).
  rewrite Z.shiftl_mul_pow2, Z.mul_comm in Hq, Hr by lia.
  rewrite Z.div_mul in Hq by lia. rewrite Z.mod_mul in Hr by lia. subst q r.
  assert (Hl : new_location (Zpos a) 0 = loc_Exact).
  { unfold new_location. by destruct (Z.even (Zpos a)). }
  rewrite Hl. reflexivity.
Qed.

Lemma truediv_share (a b : nat) :
  (a + b ≠ 0)%nat →
  truediv (Z.of_nat a) (Z.of_nat (a + b))
  = Ok (SFdiv 53 1024 (exact_int (Z.of_nat a)) (exact_int (Z.of_nat (a + b)))).
Proof.
  intros Hab. unfold truediv.
  destruct (Z.of_nat (a + b)) as [|pb|pb] eqn:Eb; [lia| |lia]. cbn [Z.eqb].
  destruct (Z.of_nat a) as [|pa|pa] eqn:Ea; [done| |lia]. cbn [exact_int].
  destruct (SFdiv 53 1024 _ _) as [| s | |] eqn:Ediv; try done.
  destruct (SFdiv_le_finite pa pb s); [lia|done].
Qed.

Lemma accuracy_spec (t : Tally) :
  ∃ acc, accuracy t = Ok acc ∧
    ((ok t + bad t = 0)%nat → acc = float_0) ∧
    ((ok t + bad t ≠ 0)%nat →
     acc = float_mul (SFdiv 53 1024 (exact_int (Z.of_nat (ok t)))
                                    (exact_int (Z.of_nat (ok t + bad t))))
                     float_100) ∧
    (ok t = 0%nat → acc = float_0) ∧
    (bad t = 0%nat → ok t ≠ 0%nat → acc = float_100).
Proof.
  unfold accuracy. destruct (ok t + bad t =? 0)%nat eqn:Hz.
  - apply Nat.eqb_eq in Hz. exists float_0. split; [done|]. split; [done|].
    split; [lia|]. split; [done|lia].
  - apply Nat.eqb_neq in Hz. rewrite truediv_share by done. cbn [bind].
    eexists. split; [reflexivity|]. split; [lia|]. split; [done|]. split.
    + intros Ho. rewrite Ho in Hz |- *. cbn [Z.of_nat exact_int].
      destruct (Z.of_nat (0 + bad t)) eqn:E; [lia| |lia]. reflexivity.
    + intros Hb Ho. rewrite Hb, Nat.add_0_r.
      destruct (Z.of_nat (ok t)) as [|pa|pa] eqn:Ea; [lia| |lia]. cbn [exact_int].
      rewrite SFdiv_same. reflexivity.
Qed.

End Floats.

Section Summary.
Context {U : Unicode}.
Variable token_sort_ratio : pystr → pystr → Z.
Local Open Scope nat_scope.

Abbreviation judge_row := (judge_row token_sort_ratio).
Abbreviation mark_of := (mark_of token_sort_ratio).
Abbreviation tally_of := (tally_of token_sort_ratio).
Abbreviation marked := (marked token_sort_ratio).
Abbreviation unmatched := (unmatched token_sort_ratio).

Lemma judge_row_counts results row t :
  let t' := snd (judge_row results row t) in
  ok t' = ok t + (if decide (mark_of results row = Right) then 1 else 0) ∧
  bad t' = bad t + (if decide (mark_of results row = Wrong) then 1 else 0).
Proof.
  unfold Evaluate.mark_of, Evaluate.judge_row, judge.
  destruct (fst (find_best_match _ _ _)) as [m|]; simpl; [|lia].
  destruct (status_done m); simpl; [|lia].
  case_bool_decide; simpl; lia.
Qed.

Lemma tally_fold_counts results rows t :
  let t' := fold_left (λ t row, snd (judge_row results row t)) rows t in
  ok t' = ok t + marked Right results rows ∧
  bad t' = bad t + marked Wrong results rows.
Proof.
  revert t. induction rows as [|row rows IH]; intros t; simpl.
  - unfold marked. simpl. lia.
  - destruct (IH (snd (judge_row results row t))) as [Hok Hbad].
    destruct (judge_row_counts results row t) as [Hok1 Hbad1].
    cbv zeta in Hok1, Hbad1. rewrite Hok, Hbad, Hok1, Hbad1.
    unfold marked. rewrite !filter_cons.
    destruct (decide (mark_of results row = Right)),
             (decide (mark_of results row = Wrong)); simpl; lia.
Qed.

(** C10. The accuracy never fails, neither by a division by zero nor by
    a quotient too large for a float: it is 0.0 when no ticket was
    judged right or wrong, and otherwise the float of the share of the
    tickets judged right among those judged right or wrong, multiplied
    by 100.0 as floats are; tickets left open do not count.  It is 0.0
    when no ticket was judged right and exactly 100.0 when none was
    judged wrong. *)
Theorem accuracy_total (rows : list TicketRow) (results : list ResultRecord) :
  let t := tally_of rows results in
  ok t = marked Right results rows ∧
  bad t = marked Wrong results rows ∧
  ∃ acc, accuracy t = Ok acc ∧
         (ok t + bad t = 0 → acc = float_0) ∧
         (ok t + bad t ≠ 0 →
          acc = float_mul (SFdiv 53 1024 (exact_int (Z.of_nat (ok t)))
                                         (exact_int (Z.of_nat (ok t + bad t))))
                          float_100) ∧
         (ok t = 0 → acc = float_0) ∧
         (bad t = 0 → ok t ≠ 0 → acc = float_100).
Proof.
  intros t. destruct (tally_fold_counts results rows (mkTally 0 0 0)) as [Hok Hbad].
  cbv zeta in Hok, Hbad. fold (tally_of rows results) in Hok, Hbad. fold t in Hok, Hbad.
  simpl in Hok, Hbad. split; [done|]. split; [done|]. apply accuracy_spec.
Qed.

Lemma judge_row_pend results row t :
  let t' := snd (judge_row results row t) in
  let none := fst (find_best_match token_sort_ratio (row_match row) results) = None in
  pend t' = pend t + (if decide none then 1 else 0) ∧
  ok t' + bad t' + (if decide (mark_of results row = Open) then 1 else 0)
  = ok t + bad t + 1 ∧
  (none → mark_of results row = Open).
Proof.
  unfold Evaluate.mark_of, Evaluate.judge_row, judge.
  destruct (fst (find_best_match _ _ _)) as [m|]; simpl.
  - destruct (status_done m); simpl; [case_bool_decide; simpl|];
      (split; [lia|]); (split; [lia|done]).
  - split; [lia|]. split; [lia|done].
Qed.

Lemma tally_fold_pend results rows t :
  let t' := fold_left (λ t row, snd (judge_row results row t)) rows t in
  pend t' = pend t + unmatched results rows ∧
  ok t' + bad t' + marked Open results rows = ok t + bad t + length rows ∧
  unmatched results rows ≤ marked Open results rows.
Proof.
  revert t. induction rows as [|row rows IH]; intros t; simpl.
  - unfold Evaluate.unmatched, Evaluate.marked. simpl. lia.
  - destruct (IH (snd (judge_row results row t))) as (Hp & Hm & Hle).
    destruct (judge_row_pend results row t) as (Hp1 & Hm1 & Hopen).
    cbv zeta in Hp1, Hm1, Hopen. rewrite Hp, Hp1.
    unfold Evaluate.unmatched, Evaluate.marked in *. rewrite !filter_cons.
    destruct (decide (fst (find_best_match token_sort_ratio (row_match row) results)
                      = None)) as [Hnone|Hsome],
             (decide (mark_of results row = Open)) as [Ho|Ho]; simpl; try lia.
    by destruct (Ho (Hopen Hnone)).
Qed.


End Summary.

(** The theorem at three tickets on one match that ended 2:1, with the
    tips 1, 2 and X: one is right and two are wrong, and the accuracy
    is the float 4691249611844266 * 2^-47, which Python prints as
    33.33333333333333 (the float nearest to 100/3 is
    33.333333333333336). *)
Lemma accuracy_total_witness :
  let m := {| get_status := Some (py "FINISHED");
              get_homeTeam := Some {| get_name := Some (Str (py "Bayern")) |};
              get_awayTeam := Some {| get_name := Some (Str (py "Dortmund")) |};
              get_score := Some {| get_fullTime :=
                Some {| get_home := Some 2%Z; get_away := Some 1%Z |} |} |} in
  let rows := [{| row_match := py "Bayern – Dortmund"; row_tip := py "1" |};
               {| row_match := py "Bayern – Dortmund"; row_tip := py "2" |};
               {| row_match := py "Bayern – Dortmund"; row_tip := py "X" |}] in
  @tally_of ascii_only same_ratio rows [m] = mkTally 1 2 0 ∧
  accuracy (@tally_of ascii_only same_ratio rows [m])
  = Ok (S754_finite false 4691249611844266 (-47)).
Proof.
  intros m rows. split; [reflexivity|].
  destruct (@accuracy_total ascii_only same_ratio rows [m])
    as (_ & _ & acc & Hacc & _ & Hshare & _).
  rewrite Hacc. f_equal. rewrite Hshare; [reflexivity|done].
Defined.

(** A normalized name consists of characters of [[a-z0-9 ]] only, holds
    no two spaces in a row and has no space at either end; a value that
    is no string normalizes to the empty string. *)
Theorem normalize_shape `{U : Unicode} (x : pystr) :
  canonical (normalize_team_name (Str x)) ∧ normalize_team_name NotStr = [].
Proof. split; [apply normalize_canonical|reflexivity]. Qed.

End EvaluateFacts.

(* ===================================================================== *)
(** * More of the extractor                                                *)
(* ===================================================================== *)

Module QuicktipsMore.
Import Py Quicktips Evaluate QuicktipsFacts EvaluateFacts.

Section Cells.
Context {U : Unicode}.
Local Open Scope nat_scope.

(** ** [normspace] *)

Lemma sub_runs_from_plain_fixed b s :
  plain_spaces s → single_spaced b s = true →
  sub_runs_from isspace (py " ") b s = s.
Proof.
  intros Hs. revert b. induction Hs as [|c s Hc _ IH]; intros b; [done|].
  cbn [sub_runs_from single_spaced]. destruct (isspace c) eqn:Hsp.
  - intros [->%negb_true_iff H]%andb_true_iff.
    rewrite (Hc eq_refl). change (py " " ++ ?r) with (32%N :: r).
    f_equal. by apply IH.
  - intros H. f_equal. by apply IH.
Qed.

Lemma normspace_plain s : plain_spaces (normspace s).
Proof.
  unfold normspace. apply strip_Forall.
  apply sub_runs_from_Forall; [by repeat constructor|]. congruence.
Qed.

(** [normspace] leaves single spaces between the words and nothing at
    the ends, and a second pass changes nothing: the [normspace] that
    [extract_teams_from_cells] applies to the cells of [parse_quicktips],
    normalized already, is the identity. *)
Theorem normspace_idempotent (s : pystr) :
  normspace (normspace s) = normspace s ∧
  strip (normspace s) = normspace s ∧
  single_spaced false (normspace s) = true ∧
  plain_spaces (normspace s).
Proof.
  assert (Hsp : single_spaced false (normspace s) = true).
  { unfold normspace. eapply single_spaced_strip, sub_runs_from_single_spaced. }
  assert (Hstrip : strip (normspace s) = normspace s).
  { destruct (strip_trimmed (sub_runs isspace (py " ") s)). by apply strip_fixed. }
  split; [|by split_and!; [|..|apply normspace_plain]].
  unfold normspace at 1. unfold sub_runs.
  rewrite sub_runs_from_plain_fixed; [done|apply normspace_plain|done].
Qed.

(** ** [parse_percent] on a well-formed cell *)

Lemma decimal_digit_char d : (0 ≤ d ≤ 9)%Z → decimal (digit_char d) = Some d.
Proof.
  intros Hd. unfold decimal, is_ascii, in_range, digit_char. eval_ord.
  replace (Z.to_N (48 + d) <? 128)%N with true by (symmetry; apply N.ltb_lt; lia).
  replace (48 <=? Z.to_N (48 + d))%N with true by (symmetry; apply N.leb_le; lia).
  replace (Z.to_N (48 + d) <=? 57)%N with true by (symmetry; apply N.leb_le; lia).
  simpl. f_equal. lia.
Qed.

(** The text after the digits: spaces, the percent sign, anything. *)
Lemma take_digits_stop n k rest :
  take_digits (S n) (replicate k 32%N ++ ord "%" :: rest) = None.
Proof. by destruct k. Qed.

Lemma take_digits_digits ds n t :
  Forall (λ d, (0 ≤ d ≤ 9)%Z) ds →
  (∀ m, take_digits (S m) t = None) →
  take_digits n (map digit_char ds ++ t)
  = if decide (n ≤ length ds)
    then Some (take n ds, map digit_char (drop n ds) ++ t)
    else None.
Proof.
  intros Hds Ht. revert n. induction Hds as [|d ds Hd _ IH]; intros n.
  - destruct n as [|n]; [done|]. cbn [map app]. rewrite Ht.
    case_decide; [simpl in *; lia|done].
  - destruct n as [|n]; [done|]. cbn [map app take_digits].
    rewrite decimal_digit_char by done. rewrite IH. simpl.
    repeat case_decide; try lia; done.
Qed.

Lemma lstrip_spaces k c rest :
  isspace c = false → lstrip (replicate k 32%N ++ c :: rest) = c :: rest.
Proof. intros Hc. induction k as [|k IH]; simpl; [by rewrite Hc|done]. Qed.

Lemma perc_tail {A} k rest (v : A) :
  char_then (ord "%") (lstrip (replicate k 32%N ++ ord "%" :: rest)) (λ _, Some v)
  = Some v.
Proof. by rewrite (lstrip_spaces k (ord "%") rest eq_refl). Qed.

(** A cell that starts with one to three ASCII digits, spaces if any
    and a percent sign parses to the number the digits spell when it is
    at most 100, and to nothing when it is larger; what follows the sign
    is not read. *)
Theorem parse_percent_wellformed (ds : list Z) (k : nat) (rest : pystr) :
  1 ≤ length ds ≤ 3 →
  Forall (λ d, (0 ≤ d ≤ 9)%Z) ds →
  parse_percent (map digit_char ds ++ replicate k 32%N ++ ord "%" :: rest)
  = if (int_of_digits ds <=? 100)%Z then Some (int_of_digits ds) else None.
Proof.
  intros Hlen Hds.
  assert (Hm : PERC_RE_match (map digit_char ds ++ replicate k 32%N ++ ord "%" :: rest)
               = Some (int_of_digits ds)).
  { unfold PERC_RE_match. cbn [digits_then].
    rewrite !(take_digits_digits ds _ _ Hds (λ m, take_digits_stop m k rest)).
    destruct ds as [|a [|b [|c [|e ds]]]]; cbn [length] in Hlen; try lia;
      repeat case_decide; cbn [length] in *; try lia;
      cbn [take drop map app]; by rewrite perc_tail. }
  assert (Hs : PERC_RE_search (map digit_char ds ++ replicate k 32%N ++ ord "%" :: rest)
               = Some (int_of_digits ds)).
  { destruct (map digit_char ds ++ _) eqn:E; cbn [PERC_RE_search]; by rewrite Hm. }
  unfold parse_percent. rewrite Hs.
  assert (0 ≤ int_of_digits ds)%Z as H0.
  { destruct ds as [|a [|b [|c [|e ds]]]]; simpl in Hlen; try lia;
      unfold int_of_digits; simpl;
      repeat match goal with H : Forall _ (_ :: _) |- _ => inversion_clear H end; lia. }
  apply Z.leb_le in H0. by rewrite H0.
Qed.

End Cells.

Section Labels.
Context {U : Unicode}.
Local Open Scope nat_scope.

(** ** The label does not read the probability cells *)

Lemma omap_enumerate_update {A B} (f : nat * A → option B) n i x (l : list A) :
  (∀ y, f (n + i, y) = None) →
  omap f (enumerate_from n (<[i:=x]> l)) = omap f (enumerate_from n l).
Proof.
  revert n i. induction l as [|a l IH]; intros n i Hf; [done|].
  destruct i as [|i]; simpl.
  - rewrite Nat.add_0_r in Hf. by rewrite !Hf.
  - assert (E : omap f (enumerate_from (S n) (<[i:=x]> l))
               = omap f (enumerate_from (S n) l)).
    { apply IH. intros y. by replace (S n + i)%nat with (n + S i)%nat by lia. }
    unfold omap in E. by rewrite E.
Qed.

(** Whatever stands in a cell of the probability run, the match label is
    the same: [extract_teams_from_cells] reads the other cells only. *)
Theorem label_ignores_run_cells (cells : list pystr) (perc_indices : list nat)
    (i : nat) (x : pystr) :
  i ∈ perc_indices →
  extract_teams_from_cells (<[i:=x]> cells) perc_indices
  = extract_teams_from_cells cells perc_indices.
Proof.
  intros Hi. unfold extract_teams_from_cells, team_candidates, candidates_of, enumerate.
  rewrite omap_enumerate_update; [done|]. intros y. simpl.
  rewrite bool_decide_eq_true_2; [done|]. by apply elem_of_list_to_set.
Qed.

(** ** Which cells become the two sides *)

Lemma dedup_fold_prefix candidates acc :
  ∃ more, fold_left dedup_step candidates acc = acc ++ more.
Proof.
  revert acc. induction candidates as [|c cs IH]; intros acc; simpl.
  - exists []. by rewrite app_nil_r.
  - destruct (IH (dedup_step acc c)) as [more ->]. unfold dedup_step.
    destruct (last acc); [case_bool_decide|]; rewrite <- ?app_assoc; eauto.
Qed.

Lemma dedup_of_head candidates : head (dedup_of candidates) = head candidates.
Proof.
  destruct candidates as [|c cs]; [done|]. unfold dedup_of. simpl.
  destruct (dedup_fold_prefix cs (dedup_step [] c)) as [more ->]. done.
Qed.

Lemma find_first {A} (f : A → bool) l x :
  find f l = Some x →
  ∃ l1 l2, l = l1 ++ x :: l2 ∧ f x = true ∧ ∀ y, y ∈ l1 → f y = false.
Proof.
  induction l as [|a l IH]; [done|]. simpl. destruct (f a) eqn:Ha.
  - intros [= ->]. exists [], l. split; [done|]. split; [done|].
    by intros y ?%elem_of_nil.
  - intros (l1 & l2 & -> & Hx & Hl1)%IH. exists (a :: l1), l2.
    split; [done|]. split; [done|]. by intros y [->|?]%elem_of_cons; auto.
Qed.

(** The home side is the first cell outside the probability run that
    reads like a team name; both sides read like team names; and an away
    side that differs from the home side is the last candidate that does
    so, up to case. *)
Theorem sides_of_the_label (cells : list pystr) (perc_indices : list nat)
    (home away : pystr) :
  choose_teams (team_candidates cells perc_indices) = Some (home, away) →
  head (candidates_of cells (list_to_set perc_indices)) = Some home ∧
  plausible_team_text home = true ∧
  plausible_team_text away = true ∧
  (lower away ≠ lower home →
   ∃ before after,
     team_candidates cells perc_indices = before ++ away :: after ∧
     ∀ c, c ∈ after → lower c = lower home).
Proof.
  intros Hchoose.
  pose proof (team_candidates_plausible cells perc_indices) as Hpl.
  unfold team_candidates in *.
  rewrite <- dedup_of_head.
  set (dedup := dedup_of _) in *.
  destruct dedup as [|h tl] eqn:Hd; [done|]. unfold choose_teams in Hchoose.
  set (fallback := match h :: tl with _ :: second :: _ => second | _ => h end) in *.
  assert (Hfb : fallback ∈ h :: tl).
  { unfold fallback. destruct tl; [left|right; left]. }
  assert (Hh : h ∈ h :: tl) by left.
  destruct (find _ (reverse (h :: tl))) as [[|c0 c]|] eqn:Hfind;
    injection Hchoose as <- <-.
  - apply find_some in Hfind as [Hin _]. apply list_elem_of_In in Hin.
    apply (proj1 (elem_of_reverse _ _)) in Hin.
    by apply Hpl in Hin.
  - destruct (find_first _ _ _ Hfind) as (l1 & l2 & Hrev & Hc & Hl1).
    assert (Hsplit : h :: tl = reverse l2 ++ (c0 :: c) :: reverse l1).
    { rewrite <- (reverse_involutive (h :: tl)), Hrev, reverse_app, reverse_cons.
      by rewrite <- app_assoc. }
    split; [done|]. split; [by apply Hpl|]. split.
    + apply Hpl. rewrite Hsplit. apply elem_of_app. right. left.
    + intros _. exists (reverse l2), (reverse l1). split; [done|].
      intros c' Hc'. apply (proj1 (elem_of_reverse _ _)) in Hc'.
      specialize (Hl1 c' Hc'). apply bool_decide_eq_false in Hl1.
      by destruct (decide (lower c' = lower h)).
  - split; [done|]. split; [by apply Hpl|]. split; [by apply Hpl|].
    intros Hne. exfalso.
    assert (Hin : In fallback (reverse (h :: tl))).
    { apply list_elem_of_In. by apply (proj2 (elem_of_reverse _ _)). }
    pose proof (find_none _ _ Hfind fallback Hin) as Hf.
    by apply bool_decide_eq_false in Hf.
Qed.

End Labels.

(** The theorem at a row that names the home side twice. *)
Lemma label_ignores_run_cells_witness :
  let cells := [py "Sparta"; py "Slavia"; py "40%"; py "25%"; py "35%"] in
  @extract_teams_from_cells ascii_only (<[3%nat := py "Brno"]> cells) [2; 3; 4]%nat
  = @extract_teams_from_cells ascii_only cells [2; 3; 4]%nat.
Proof.
  apply (@label_ignores_run_cells ascii_only
           [py "Sparta"; py "Slavia"; py "40%"; py "25%"; py "35%"]
           [2; 3; 4]%nat 3%nat (py "Brno")).
  set_solver.
Defined.

Lemma sides_of_the_label_witness :
  let cells := [py "12.10"; py "Sparta"; py "Slavia"; py "SLAVIA"; py "sparta";
                py "40%"; py "25%"; py "35%"] in
  @choose_teams ascii_only (@team_candidates ascii_only cells [5; 6; 7]%nat)
  = Some (py "Sparta", py "Slavia") ∧
  head (@candidates_of ascii_only cells (list_to_set [5; 6; 7]%nat))
  = Some (py "Sparta") ∧
  @plausible_team_text ascii_only (py "Slavia") = true.
Proof.
  split; [reflexivity|].
  pose proof (@sides_of_the_label ascii_only
           [py "12.10"; py "Sparta"; py "Slavia"; py "SLAVIA"; py "sparta";
            py "40%"; py "25%"; py "35%"]
           [5; 6; 7]%nat (py "Sparta") (py "Slavia") eq_refl) as (H1 & _ & H3 & _).
  exact (conj H1 H3).
Defined.

(** The theorem at "40 % win". *)
Lemma parse_percent_wellformed_witness :
  @parse_percent ascii_only (py "40 % win") = Some 40%Z.
Proof.
  apply (@parse_percent_wellformed ascii_only [4; 0]%Z 1 (py " win")).
  - simpl. lia.
  - repeat constructor; lia.
Defined.

Section Pipeline.
Context {U : Unicode}.
Local Open Scope nat_scope.

(** ** The loops of [parse_quicktips] as comprehensions *)

Lemma scan_rows_eq trs rows_out :
  scan_rows trs rows_out = Ok (rows_out ++ flat_map tickets_of_row trs).
Proof.
  revert rows_out. induction trs as [|tr trs IH]; intros rows_out;
    cbn [scan_rows flat_map].
  - by rewrite app_nil_r.
  - unfold tickets_of_row at 1.
    destruct (scan_row_cases tr) as [Hr|(t & Hr & _)]; rewrite Hr; cbn [bind].
    + apply IH.
    + rewrite IH. by rewrite <- app_assoc.
Qed.

Lemma scan_tables_eq tables rows_out :
  scan_tables tables rows_out = Ok (rows_out ++ rows_of tables).
Proof.
  unfold rows_of. revert rows_out.
  induction tables as [|table tables IH]; intros rows_out;
    cbn [scan_tables flat_map].
  - by rewrite app_nil_r.
  - destruct (is_quicktips_table table).
    + rewrite scan_rows_eq. cbn [bind]. rewrite IH. by rewrite <- app_assoc.
    + apply IH.
Qed.

Lemma elem_of_rows_of html table tr t :
  table ∈ html → is_quicktips_table table = true → tr ∈ table →
  scan_row tr = Ok (Some t) → t ∈ rows_of html.
Proof.
  intros Htable Hq Htr Hrow. unfold rows_of.
  apply list_elem_of_In, in_flat_map. exists table.
  split; [by apply list_elem_of_In|]. rewrite Hq.
  apply in_flat_map. exists tr. split; [by apply list_elem_of_In|].
  unfold tickets_of_row. rewrite Hrow. by left.
Qed.

(** [parse_quicktips] returns the rows of the QuickTips tables in
    document order with the later duplicates dropped, and loses no
    row otherwise: every row that yields a ticket, in a table taken for
    a QuickTips table, has a ticket of its match and tip in the result. *)
Theorem parse_quicktips_complete (html : Document) :
  parse_quicktips html = Ok (dedupe (rows_of html)) ∧
  ∀ table tr t,
    table ∈ html → is_quicktips_table table = true → tr ∈ table →
    scan_row tr = Ok (Some t) →
    ∃ t', t' ∈ dedupe (rows_of html) ∧ match_ t' = match_ t ∧ tip t' = tip t.
Proof.
  split.
  - unfold parse_quicktips. by rewrite scan_tables_eq.
  - intros table tr t Htable Hq Htr Hrow.
    pose proof (elem_of_rows_of _ _ _ _ Htable Hq Htr Hrow) as Hin.
    assert (Hk : key_of t ∈ key_of <$> dedupe (rows_of html)).
    { apply dedupe_keys. by apply list_elem_of_fmap_2. }
    apply list_elem_of_fmap in Hk as (t' & Hkey & Ht').
    exists t'. split; [done|]. unfold key_of in Hkey. by injection Hkey as -> ->.
Qed.

End Pipeline.

Section Printing.
Context {U : Unicode}.
Local Open Scope nat_scope.

(** ** The width of the lines of [print_ticket] *)

Lemma ljust_length w s : length (ljust w s) = Nat.max w (length s).
Proof. unfold ljust. rewrite length_app, length_replicate. lia. Qed.

Lemma rjust_length w s : length (rjust w s) = Nat.max w (length s).
Proof.
  unfold rjust. rewrite length_app, length_replicate.
  change (length (A:=N) s) with (length s). lia.
Qed.

Lemma shown_match_length m : length (shown_match m) ≤ 44.
Proof.
  unfold shown_match. destruct (44 <? length m) eqn:H.
  - apply Nat.ltb_lt in H. rewrite length_app, length_take.
    change (length (py "...")) with 3. lia.
  - apply Nat.ltb_ge in H. lia.
Qed.

Lemma str_int_small (n : Z) (bound width : nat) :
  forallb (λ k, length (str_int (Z.of_nat k)) <=? width) (seq 0 (S bound)) = true →
  (0 ≤ n ≤ Z.of_nat bound)%Z → length (str_int n) ≤ width.
Proof.
  intros Hall Hn. rewrite forallb_forall in Hall.
  specialize (Hall (Z.to_nat n)). rewrite Z2Nat.id in Hall by lia.
  apply Nat.leb_le, Hall, in_seq. lia.
Qed.

Lemma str_int_percent n : (0 ≤ n ≤ 100)%Z → length (str_int n) ≤ 3.
Proof. apply (str_int_small n 100 3). by vm_compute. Qed.

Lemma str_int_index n : (0 ≤ n ≤ 99)%Z → length (str_int n) ≤ 2.
Proof. apply (str_int_small n 99 2). by vm_compute. Qed.

Lemma argmax_1X2_length v1 vX v2 : length (argmax_1X2 v1 vX v2) = 1.
Proof. unfold argmax_1X2. by repeat case_match. Qed.

Lemma enumerate_from_lookup {A} n (l : list A) i :
  enumerate_from n l !! i = (λ x, (n + i, x)) <$> l !! i.
Proof.
  revert n i. induction l as [|x l IH]; intros n [|i]; simpl; try done.
  - by rewrite Nat.add_0_r.
  - rewrite IH. by replace (S n + i) with (n + S i) by lia.
Qed.

Lemma ticket_line_length idx r :
  (Z.of_nat idx ≤ 99)%Z → length (tip r) = 1 →
  (0 ≤ p1 r ≤ 100)%Z → (0 ≤ pX r ≤ 100)%Z → (0 ≤ p2 r ≤ 100)%Z →
  length (ticket_line idx r) = 66.
Proof.
  intros Hidx Htip H1 HX H2. unfold ticket_line.
  rewrite !length_app, !ljust_length, !rjust_length, Htip.
  change (length (py "  ")) with 2.
  pose proof (shown_match_length (match_ r)).
  pose proof (str_int_index (Z.of_nat idx)).
  pose proof (str_int_percent (p1 r)).
  pose proof (str_int_percent (pX r)).
  pose proof (str_int_percent (p2 r)). lia.
Qed.

(** The first 99 lines that [print_ticket] writes for the rows of
    [parse_quicktips] are 66 characters wide each: no match, tip or
    probability pushes a column out of place. *)
Theorem ticket_lines_aligned (html : Document) (tickets : list Ticket)
    (i : nat) (line : pystr) :
  parse_quicktips html = Ok tickets →
  ticket_lines tickets !! i = Some line →
  i < 99 →
  length line = 66.
Proof.
  unfold parse_quicktips. intros Hparse Hline Hi.
  destruct (scan_tables_spec html []) as (out & Hscan & Hout).
  rewrite Hscan in Hparse. cbn [bind app] in Hparse. injection Hparse as <-.
  unfold ticket_lines in Hline.
  rewrite list_lookup_fmap, enumerate_from_lookup in Hline.
  destruct (dedupe out !! i) as [t|] eqn:Ht; [|done].
  cbn in Hline. injection Hline as <-.
  apply list_elem_of_lookup_2 in Ht.
  pose proof (elem_of_sublist _ _ _ Ht (dedupe_sublist out)) as Hin.
  destruct (Hout t Hin) as (table & tr & _ & _ & _ & Hrow).
  destruct (scan_row_cases tr) as [Hnone|(t' & Hsome & Htip & H1 & HX & H2)];
    [congruence|].
  rewrite Hrow in Hsome. injection Hsome as <-.
  apply ticket_line_length; [lia| |done..].
  rewrite Htip. apply argmax_1X2_length.
Qed.

End Printing.

(** The theorem at a table of one row. *)
Lemma ticket_lines_aligned_witness :
  let html := [[[py "Sparta"; py "Slavia"; py "40%"; py "25%"; py "35%"]]] in
  @parse_quicktips ascii_only html
  = Ok [mkTicket (py "Sparta – Slavia") (py "1") 40 25 35] ∧
  length (@ticket_line 1 (mkTicket (py "Sparta – Slavia") (py "1") 40 25 35)) = 66%nat.
Proof.
  split; [reflexivity|].
  apply (@ticket_lines_aligned ascii_only
           [[[py "Sparta"; py "Slavia"; py "40%"; py "25%"; py "35%"]]]
           [mkTicket (py "Sparta – Slavia") (py "1") 40 25 35] 0%nat);
    [reflexivity|reflexivity|lia].
Defined.

Section Dashes.
Context {U : Unicode}.
Local Open Scope nat_scope.

(** ** No hyphen is left in a label *)

Lemma is_dash_false c : is_dash c = false ↔ c ≠ ord "-" ∧ c ≠ en_dash.
Proof.
  unfold is_dash. rewrite orb_false_iff, !N.eqb_neq. tauto.
Qed.

Lemma DASH_FIX_RE_sub_from_no_hyphen b p s :
  Forall (λ c, c ≠ ord "-") p →
  Forall (λ c, c ≠ ord "-") (DASH_FIX_RE_sub_from b p s).
Proof.
  revert b p. induction s as [|c s IH]; intros b p Hp; [done|].
  cbn [DASH_FIX_RE_sub_from]. destruct (is_dash c) eqn:Hd.
  - apply Forall_app. split; [by repeat constructor|]. by apply IH.
  - apply is_dash_false in Hd as [Hc _].
    destruct (isspace c); [destruct b|].
    + by apply IH.
    + apply IH, Forall_app. split; [done|]. by repeat constructor.
    + apply Forall_app. split; [done|]. constructor; [done|]. by apply IH.
Qed.

Lemma clean_match_name_no_hyphen s : Forall (λ c, c ≠ ord "-") (clean_match_name s).
Proof.
  unfold clean_match_name, normspace. apply strip_Forall.
  apply sub_runs_from_kept; [by repeat constructor|].
  by apply DASH_FIX_RE_sub_from_no_hyphen.
Qed.

Lemma contains_absent d s : Forall (λ c, c ≠ d) s → contains [d] s = false.
Proof.
  induction 1 as [|c s Hc _ IH]; [done|]. cbn [contains startswith].
  rewrite IH. by rewrite (proj2 (N.eqb_neq d c)).
Qed.

(** No label that [extract_teams_from_cells] builds holds a hyphen:
    [clean_match_name] turns each into an en dash, so the test
    ["-" in match] of [split_match] fails on every label. *)
Theorem label_has_no_hyphen (cells : list pystr) (perc_indices : list nat) :
  Forall (λ c, c ≠ ord "-") (extract_teams_from_cells cells perc_indices) ∧
  contains (py "-") (extract_teams_from_cells cells perc_indices) = false.
Proof.
  assert (H : Forall (λ c, c ≠ ord "-") (extract_teams_from_cells cells perc_indices)).
  { unfold extract_teams_from_cells.
    destruct (choose_teams _) as [[home away]|]; [|by repeat constructor].
    apply clean_match_name_no_hyphen. }
  split; [done|]. by apply (contains_absent (ord "-")).
Qed.

End Dashes.

End QuicktipsMore.

Module EvaluateMore.
Import Py Quicktips Evaluate QuicktipsFacts EvaluateFacts QuicktipsMore.

Section Dates.
Context {U : Unicode}.
Local Open Scope nat_scope.

(** ** The date in the name of the ticket file *)

Lemma ISO_DATE_RE_match_no_digit c s :
  decimal c = None → ISO_DATE_RE_match (c :: s) = None.
Proof.
  intros Hc. unfold ISO_DATE_RE_match. cbn [digits_then take_digits]. by rewrite Hc.
Qed.

Lemma ISO_DATE_RE_search_skip pre s :
  Forall (λ c, decimal c = None) pre →
  ISO_DATE_RE_search (pre ++ s) = ISO_DATE_RE_search s.
Proof.
  induction 1 as [|c pre Hc _ IH]; [done|].
  cbn [app ISO_DATE_RE_search]. by rewrite ISO_DATE_RE_match_no_digit.
Qed.

Lemma ISO_DATE_RE_search_none s :
  Forall (λ c, decimal c = None) s → ISO_DATE_RE_search s = None.
Proof.
  induction 1 as [|c pre Hc _ IH]; [done|].
  cbn [ISO_DATE_RE_search]. by rewrite ISO_DATE_RE_match_no_digit.
Qed.

Lemma ISO_DATE_RE_match_iso d post :
  iso_shaped d → ISO_DATE_RE_match (d ++ post) = Some d.
Proof.
  intros (y1 & y2 & y3 & y4 & m1 & m2 & d1 & d2 & -> & Hd).
  repeat match goal with
         | H : Forall _ (_ :: _) |- _ => apply Forall_cons in H as [[? ?] H]
         end.
  unfold ISO_DATE_RE_match.
  repeat (cbn [app digits_then take_digits char_then orelse];
          first [ rewrite N.eqb_refl
                | match goal with H : decimal _ = Some _ |- _ => rewrite H end ]).
  done.
Qed.

Lemma ISO_DATE_RE_search_iso d post :
  iso_shaped d → ISO_DATE_RE_search (d ++ post) = Some d.
Proof.
  intros Hd. pose proof (ISO_DATE_RE_match_iso d post Hd) as Hm.
  destruct (d ++ post); cbn [ISO_DATE_RE_search]; by rewrite Hm.
Qed.

(** The evaluator reads back the date under which [save_csv] named the
    ticket file. *)
Theorem saved_date_is_read_back (today date : pystr) :
  iso_shaped date →
  extract_date_from_filename today (ticket_file_name date) = date.
Proof.
  intros Hd. unfold extract_date_from_filename, ticket_file_name.
  rewrite ISO_DATE_RE_search_skip, ISO_DATE_RE_search_iso; [done..|].
  by repeat constructor.
Qed.

Lemma take_digits_chars n s ds rest :
  take_digits n s = Some (ds, rest) →
  ∃ cs, s = cs ++ rest ∧ length cs = n ∧ Forall (λ c, is_Some (decimal c)) cs.
Proof.
  revert s ds. induction n as [|n IH]; intros s ds; cbn [take_digits].
  - intros [= <- <-]. by exists [].
  - destruct s as [|c s]; [done|]. destruct (decimal c) as [v|] eqn:Hc; [|done].
    destruct (take_digits n s) as [[ds' rest']|] eqn:Ht; [|done].
    intros [= <- <-]. destruct (IH _ _ Ht) as (cs & -> & Hlen & Hcs).
    exists (c :: cs). split; [done|]. split; [by simpl; f_equal|].
    constructor; [by rewrite Hc|done].
Qed.

Lemma char_then_inv {A} c s (k : pystr → option A) r :
  char_then c s k = Some r → ∃ rest, s = c :: rest ∧ k rest = Some r.
Proof.
  destruct s as [|c' rest]; [done|]. cbn [char_then].
  destruct (c' =? c)%N eqn:Hc; [|done]. apply N.eqb_eq in Hc as ->. eauto.
Qed.

Lemma ISO_DATE_RE_match_inv s d :
  ISO_DATE_RE_match s = Some d → iso_shaped d ∧ ∃ post, s = d ++ post.
Proof.
  unfold ISO_DATE_RE_match. cbn [digits_then]. unfold orelse.
  destruct (take_digits 4 s) as [[ds1 r1]|] eqn:H1; [|done].
  destruct (char_then _ r1 _) as [x|] eqn:H2; [|done]. intros [= ->].
  apply char_then_inv in H2 as (r2 & -> & H2).
  destruct (take_digits 2 r2) as [[ds2 r3]|] eqn:H3; [|done].
  destruct (char_then _ r3 _) as [y|] eqn:H4; [|done].
  injection H2 as ->.
  apply char_then_inv in H4 as (r4 & -> & H4).
  destruct (take_digits 2 r4) as [[ds3 r5]|] eqn:H5; [|done].
  injection H4 as <-.
  apply take_digits_chars in H1 as (c1 & -> & L1 & F1).
  apply take_digits_chars in H3 as (c2 & -> & L2 & F2).
  apply take_digits_chars in H5 as (c3 & -> & L3 & F3).
  destruct c1 as [|y1 [|y2 [|y3 [|y4 [|]]]]]; try done.
  destruct c2 as [|m1 [|m2 [|]]]; try done.
  destruct c3 as [|d1 [|d2 [|]]]; try done.
  cbn [app take]. split; [|by eexists].
  exists y1, y2, y3, y4, m1, m2, d1, d2. split; [done|].
  repeat match goal with
         | H : Forall _ (_ :: _) |- _ => apply Forall_cons in H as [? H]
         end.
  by repeat constructor.
Qed.

Lemma ISO_DATE_RE_search_inv s d :
  ISO_DATE_RE_search s = Some d → iso_shaped d ∧ ∃ pre post, s = pre ++ d ++ post.
Proof.
  induction s as [|c s IH]; cbn [ISO_DATE_RE_search]; unfold orelse.
  - destruct (ISO_DATE_RE_match []) eqn:Hm; [|done]. intros [= ->].
    apply ISO_DATE_RE_match_inv in Hm as [? [post ?]]. split; [done|]. by exists [], post.
  - destruct (ISO_DATE_RE_match (c :: s)) eqn:Hm.
    + intros [= ->]. apply ISO_DATE_RE_match_inv in Hm as [? [post ?]].
      split; [done|]. by exists [], post.
    + intros [? (pre & post & ->)]%IH. split; [done|]. by exists (c :: pre), post.
Qed.

(** The date the evaluator works with is today's, or a piece of the file
    name of the shape dddd-dd-dd; it is today's when the name holds no
    digit.  (Nothing checks that the piece is a date of the calendar.) *)
Theorem extract_date_shape (today fname : pystr) :
  (Forall (λ c, decimal c = None) fname →
   extract_date_from_filename today fname = today) ∧
  (extract_date_from_filename today fname = today ∨
   iso_shaped (extract_date_from_filename today fname) ∧
   ∃ pre post, fname = pre ++ extract_date_from_filename today fname ++ post).
Proof.
  unfold extract_date_from_filename. split.
  - intros H. by rewrite ISO_DATE_RE_search_none.
  - destruct (ISO_DATE_RE_search fname) as [d|] eqn:Hs; [right|by left].
    by apply ISO_DATE_RE_search_inv.
Qed.

End Dates.

(** The theorem at the ticket of 25 October 2025. *)
Lemma saved_date_is_read_back_witness :
  @extract_date_from_filename ascii_only (py "2026-01-01")
    (py "tiket_quicktips_2025-10-25.csv")
  = py "2025-10-25".
Proof.
  apply (@saved_date_is_read_back ascii_only (py "2026-01-01") (py "2025-10-25")).
  exists (ord "2"), (ord "0"), (ord "2"), (ord "5"),
         (ord "1"), (ord "0"), (ord "2"), (ord "5").
  split; [reflexivity|]. repeat constructor; by eexists.
Defined.

Section FirstBest.
Context {U : Unicode}.
Variable token_sort_ratio : pystr → pystr → Z.

(** ** Which record wins a tie *)

Lemma best_step_first_best match_name seen st m :
  first_best_of token_sort_ratio match_name seen st →
  first_best_of token_sort_ratio match_name (seen ++ [m])
    (best_step token_sort_ratio match_name st m).
Proof.
  intros [[-> Hlow]|(before & b & after & -> & -> & Hb & Hbefore & Hafter)];
    unfold best_step; cbn [snd];
    destruct (Qlt_bool _ _) eqn:Hlt;
    [apply Qlt_bool_true in Hlt|apply Qlt_bool_false in Hlt
    |apply Qlt_bool_true in Hlt|apply Qlt_bool_false in Hlt].
  - right. exists seen, m, []. split_and!; try done.
    + intros m' Hm'. eapply Qle_lt_trans; [by apply Hlow|done].
    + by intros m' ?%elem_of_nil.
  - left. split; [done|].
    intros m' [?| ->%list_elem_of_singleton]%elem_of_app; [by apply Hlow|done].
  - right. exists (before ++ b :: after), m, []. split_and!; try done.
    + by eapply Qlt_trans.
    + intros m' [?|[->|?]%elem_of_cons]%elem_of_app.
      * eapply Qlt_trans; [by apply Hbefore|done].
      * done.
      * eapply Qle_lt_trans; [by apply Hafter|done].
    + by intros m' ?%elem_of_nil.
  - right. exists before, b, (after ++ [m]). split_and!; try done.
    + by rewrite <- app_assoc.
    + intros m' [?| ->%list_elem_of_singleton]%elem_of_app; [by apply Hafter|done].
Qed.

Lemma best_fold_first_best match_name seen results st :
  first_best_of token_sort_ratio match_name seen st →
  first_best_of token_sort_ratio match_name (seen ++ results)
    (fold_left (best_step token_sort_ratio match_name) results st).
Proof.
  revert seen st. induction results as [|m results IH]; intros seen st Hst; simpl.
  - by rewrite app_nil_r.
  - replace (seen ++ m :: results) with ((seen ++ [m]) ++ results)
      by (by rewrite <- app_assoc).
    by apply IH, best_step_first_best.
Qed.

Lemma int_of_nonneg x : (0 ≤ int_of (if Qle_bool (Qmake 0 1) x then x else Qmake 0 1))%Z.
Proof.
  destruct (Qle_bool (Qmake 0 1) x) eqn:Hle; [|done].
  apply Qle_bool_iff in Hle. unfold Qle in Hle. simpl in Hle. unfold int_of.
  apply Z.quot_pos; lia.
Qed.

(** The fuzzy score that [find_best_match] reports is never negative,
    and the record it returns is the first of the list with the highest
    score, which is at least 70: every record before it scores strictly
    less, none after it scores more.  Nothing is assumed of the
    similarity. *)
Theorem find_best_match_first_max (match_name : pystr) (results : list ResultRecord) :
  (0 ≤ snd (find_best_match token_sort_ratio match_name results))%Z ∧
  ∀ m, fst (find_best_match token_sort_ratio match_name results) = Some m →
       ∃ before after,
         results = before ++ m :: after ∧
         (FUZZY_THRESHOLD <= match_score token_sort_ratio match_name m)%Q ∧
         (∀ m', m' ∈ before →
                (match_score token_sort_ratio match_name m'
                 < match_score token_sort_ratio match_name m)%Q) ∧
         (∀ m', m' ∈ after →
                (match_score token_sort_ratio match_name m'
                 <= match_score token_sort_ratio match_name m)%Q).
Proof.
  assert (H0 : first_best_of token_sort_ratio match_name [] (None, Qmake (-1) 1)).
  { left. split; [done|]. by intros m ?%elem_of_nil. }
  pose proof (best_fold_first_best match_name [] results _ H0) as Hbest.
  simpl in Hbest. unfold find_best_match.
  destruct (fold_left _ results _) as [best best_score]. cbn [fst snd].
  split; [apply int_of_nonneg|]. intros m Hm.
  destruct (Qle_bool FUZZY_THRESHOLD best_score) eqn:Hle; [|done]. subst best.
  apply Qle_bool_iff in Hle.
  destruct Hbest as [[[=] _]|(before & b & after & -> & [= -> ->] & _ & Hbefore & Hafter)].
  by exists before, after.
Qed.

End FirstBest.

(** The theorem at two records of the same two sides: the first one is
    returned. *)
Lemma find_best_match_first_max_witness :
  let m1 := {| get_status := Some (py "FINISHED");
               get_homeTeam := Some {| get_name := Some (Str (py "Bayern")) |};
               get_awayTeam := Some {| get_name := Some (Str (py "Dortmund")) |};
               get_score := None |} in
  let m2 := {| get_status := Some (py "SCHEDULED");
               get_homeTeam := Some {| get_name := Some (Str (py "Bayern")) |};
               get_awayTeam := Some {| get_name := Some (Str (py "Dortmund")) |};
               get_score := None |} in
  @find_best_match ascii_only same_ratio (py "Bayern – Dortmund") [m1; m2]
  = (Some m1, 100%Z) ∧
  ∃ before after, [m1; m2] = before ++ m1 :: after ∧
    ∀ m', m' ∈ after →
          (@match_score ascii_only same_ratio (py "Bayern – Dortmund") m'
           <= @match_score ascii_only same_ratio (py "Bayern – Dortmund") m1)%Q.
Proof.
  intros m1 m2. split; [reflexivity|].
  destruct (proj2 (@find_best_match_first_max ascii_only same_ratio
                     (py "Bayern – Dortmund") [m1; m2]) m1 eq_refl)
    as (before & after & H1 & _ & _ & H2).
  by exists before, after.
Defined.

Section Sides.
Context {U : Unicode}.
Local Open Scope nat_scope.

(** ** The two sides of a match name *)

Lemma contains_present d s t : contains [d] (s ++ d :: t) = true.
Proof.
  induction s as [|c s IH]; cbn [app contains startswith].
  - by rewrite N.eqb_refl.
  - rewrite IH. apply orb_true_r.
Qed.

Lemma split_from_piece d cur s t :
  Forall (λ c, c ≠ d) s →
  split_from [d] 0 cur (s ++ d :: t) = (reverse cur ++ s) :: split_from [d] 0 [] t.
Proof.
  intros Hs. revert cur.
  induction Hs as [|c s Hc _ IH]; intros cur; cbn [app split_from startswith].
  - rewrite N.eqb_refl. cbn. by rewrite app_nil_r.
  - rewrite (proj2 (N.eqb_neq d c)) by done. cbn [andb].
    by rewrite IH, reverse_cons, <- app_assoc.
Qed.

Lemma split_from_last d cur s :
  Forall (λ c, c ≠ d) s → split_from [d] 0 cur s = [reverse cur ++ s].
Proof.
  intros Hs. revert cur.
  induction Hs as [|c s Hc _ IH]; intros cur; cbn [split_from startswith].
  - by rewrite app_nil_r.
  - rewrite (proj2 (N.eqb_neq d c)) by done. cbn [andb].
    by rewrite IH, reverse_cons, <- app_assoc.
Qed.

Lemma split_match_two home away :
  Forall (λ c, c ≠ en_dash) home → Forall (λ c, c ≠ en_dash) away →
  split_match (home ++ en_dash :: away) = (strip home, strip away).
Proof.
  intros Hh Ha. unfold split_match. change (py "–") with [en_dash].
  rewrite contains_present. unfold split.
  rewrite split_from_piece, split_from_last by done. done.
Qed.

(** A name is split at its first en dash; what follows a second en dash
    is dropped, and hyphens are no separators in a name that holds an
    en dash. *)
Theorem split_match_en_dash (home away : pystr) :
  Forall (λ c, c ≠ en_dash) home → Forall (λ c, c ≠ en_dash) away →
  split_match (home ++ en_dash :: away) = (strip home, strip away) ∧
  ∀ more, split_match (home ++ en_dash :: away ++ en_dash :: more)
          = (strip home, strip away).
Proof.
  intros Hh Ha. split; [by apply split_match_two|]. intros more.
  unfold split_match. change (py "–") with [en_dash].
  rewrite contains_present. unfold split.
  rewrite !split_from_piece by done. done.
Qed.

(** A name without an en dash is split at its first hyphen: the home
    side is what stands before it, the away side what stands between it
    and the second hyphen, or the end of the name, and what follows a
    second hyphen is dropped.  A name with neither dash is the home
    side, with an empty away side. *)
Theorem split_match_hyphen (home away : pystr) :
  Forall (λ c, is_dash c = false) home → Forall (λ c, is_dash c = false) away →
  split_match (home ++ ord "-" :: away) = (strip home, strip away) ∧
  (∀ more, Forall (λ c, c ≠ en_dash) more →
           split_match (home ++ ord "-" :: away ++ ord "-" :: more)
           = (strip home, strip away)) ∧
  split_match home = (strip home, []).
Proof.
  intros Hh Ha.
  assert (Hh1 : Forall (λ c, c ≠ ord "-") home).
  { eapply Forall_impl; [exact Hh|]. by intros c [? ?]%is_dash_false. }
  assert (Hh2 : Forall (λ c, c ≠ en_dash) home).
  { eapply Forall_impl; [exact Hh|]. by intros c [? ?]%is_dash_false. }
  assert (Ha1 : Forall (λ c, c ≠ ord "-") away).
  { eapply Forall_impl; [exact Ha|]. by intros c [? ?]%is_dash_false. }
  assert (Ha2 : Forall (λ c, c ≠ en_dash) away).
  { eapply Forall_impl; [exact Ha|]. by intros c [? ?]%is_dash_false. }
  unfold split_match. change (py "–") with [en_dash]. change (py "-") with [ord "-"].
  split; [|split].
  - rewrite (contains_absent en_dash).
    2:{ apply Forall_app. split; [done|]. by constructor. }
    rewrite contains_present. unfold split.
    rewrite split_from_piece, split_from_last by done. done.
  - intros more Hm. rewrite (contains_absent en_dash).
    2:{ apply Forall_app. split; [done|]. constructor; [done|].
        apply Forall_app. split; [done|]. by constructor. }
    rewrite contains_present. unfold split.
    rewrite !split_from_piece by done. done.
  - by rewrite !contains_absent.
Qed.

(** ** From the label of [extract_teams_from_cells] back to the sides *)

Lemma lstrip_fixed_head c s : lstrip (c :: s) = c :: s → isspace c = false.
Proof.
  simpl. destruct (isspace c); [|done]. intros H.
  pose proof (lstrip_length s) as Hl. rewrite H in Hl. simpl in Hl. lia.
Qed.

Lemma trimmed_last s :
  s ≠ [] → lstrip (reverse s) = reverse s →
  ∃ s' c, s = s' ++ [c] ∧ isspace c = false.
Proof.
  destruct s as [|c s' _] using rev_ind; [done|]. intros _.
  rewrite reverse_snoc. intros H%lstrip_fixed_head. eauto.
Qed.

Lemma single_spaced_split b s c t :
  isspace c = false →
  single_spaced b (s ++ c :: t) = single_spaced b (s ++ [c]) && single_spaced false t.
Proof.
  intros Hc. revert b. induction s as [|x s IH]; intros b; cbn [app single_spaced].
  - by rewrite Hc.
  - destruct (isspace x); [|apply IH]. rewrite IH. by rewrite andb_assoc.
Qed.

Lemma DASH_FIX_RE_sub_from_plain p s :
  Forall (λ c, is_dash c = false) s → DASH_FIX_RE_sub_from false p s = p ++ s.
Proof.
  intros Hs. revert p.
  induction Hs as [|c s Hc _ IH]; intros p; cbn [DASH_FIX_RE_sub_from].
  - by rewrite app_nil_r.
  - rewrite Hc. destruct (isspace c).
    + by rewrite IH, <- app_assoc.
    + by rewrite IH.
Qed.

Lemma DASH_FIX_RE_sub_from_word p s c t :
  Forall (λ c, is_dash c = false) s → is_dash c = false → isspace c = false →
  DASH_FIX_RE_sub_from false p (s ++ c :: t)
  = p ++ s ++ c :: DASH_FIX_RE_sub_from false [] t.
Proof.
  intros Hs Hc Hsp. revert p.
  induction Hs as [|x s Hx _ IH]; intros p; cbn [app DASH_FIX_RE_sub_from].
  - by rewrite Hc, Hsp.
  - rewrite Hx. destruct (isspace x).
    + by rewrite IH, <- app_assoc.
    + by rewrite IH.
Qed.

Lemma strip_padded_right s :
  s ≠ [] → lstrip s = s → lstrip (reverse s) = reverse s → strip (s ++ [32%N]) = s.
Proof.
  intros Hs Hl Hr. unfold strip.
  assert (E : lstrip (s ++ [32%N]) = s ++ [32%N]).
  { destruct s as [|c0 r]; [done|]. apply lstrip_fixed_head in Hl.
    cbn [app lstrip]. by rewrite Hl. }
  rewrite E. unfold rstrip. rewrite reverse_snoc.
  change (lstrip (32%N :: reverse s)) with (lstrip (reverse s)).
  rewrite Hr. apply reverse_involutive.
Qed.

Lemma strip_padded_left s :
  lstrip s = s → lstrip (reverse s) = reverse s → strip (32%N :: s) = s.
Proof.
  intros Hl Hr. unfold strip. change (lstrip (32%N :: s)) with (lstrip s).
  rewrite Hl. unfold rstrip. rewrite Hr. apply reverse_involutive.
Qed.

Lemma joined_label_fixed home' hl af away' :
  let home := home' ++ [hl] in
  let away := af :: away' in
  plain_spaces home → plain_spaces away →
  single_spaced false home = true → single_spaced false away = true →
  lstrip home = home → lstrip (reverse away) = reverse away →
  isspace hl = false → isspace af = false →
  Forall (λ c, is_dash c = false) home → Forall (λ c, is_dash c = false) away →
  (∀ c, head home = Some c → decimal c = None) →
  clean_match_name (home ++ py " – " ++ away) = home ++ py " – " ++ away.
Proof.
  intros home away Hph Hpa Hsh Hsa Hlh Hra Hhl Haf Hdh Hda Hdigit.
  change (py " – ") with [32%N; en_dash; 32%N].
  assert (Hfirst : ∃ c0 r, home = c0 :: r ∧ isspace c0 = false ∧ decimal c0 = None).
  { destruct home as [|c0 r] eqn:E; [by destruct home'|].
    exists c0, r. split; [done|]. split; [by eapply lstrip_fixed_head|by apply Hdigit]. }
  destruct Hfirst as (c0 & r & Hhome & Hc0 & Hd0).
  unfold clean_match_name. set (X := home ++ _ ++ away).
  assert (Hdate : DATE_PREFIX_RE_sub X = X).
  { unfold X. rewrite Hhome. unfold DATE_PREFIX_RE_sub. cbn [app lstrip]. rewrite Hc0.
    cbn [digits_then take_digits]. by rewrite Hd0. }
  rewrite Hdate.
  assert (Hdash : DASH_FIX_RE_sub X = X).
  { unfold X, DASH_FIX_RE_sub, home. rewrite <- app_assoc. cbn [app].
    apply Forall_app in Hdh as [Hdh' [Hdl _]%Forall_cons].
    rewrite DASH_FIX_RE_sub_from_word by done. cbn [app]. do 2 f_equal.
    apply Forall_cons in Hda as [Hdaf Hda'].
    cbn [DASH_FIX_RE_sub_from]. unfold away.
    change (is_dash 32) with false. change (isspace 32) with true.
    change (is_dash en_dash) with true. cbn [app DASH_FIX_RE_sub_from].
    change (is_dash 32) with false. change (isspace 32) with true.
    cbn [app DASH_FIX_RE_sub_from]. rewrite Hdaf, Haf.
    by rewrite DASH_FIX_RE_sub_from_plain. }
  rewrite Hdash. unfold normspace, sub_runs.
  assert (Hruns : sub_runs_from isspace (py " ") false X = X).
  { apply sub_runs_from_plain_fixed.
    - apply Forall_app. split; [done|]. apply Forall_app. split; [|done].
      repeat constructor; by vm_compute.
    - unfold X, home. rewrite <- app_assoc. cbn [app].
      rewrite single_spaced_split by done. fold home. rewrite Hsh. cbn [andb].
      unfold away in *. cbn [single_spaced] in Hsa |- *. rewrite Haf in Hsa |- *.
      change (isspace 32) with true. change (isspace en_dash) with false.
      cbn [negb andb]. exact Hsa. }
  rewrite Hruns. apply strip_fixed; unfold X.
  - rewrite Hhome. cbn [app lstrip]. by rewrite Hc0.
  - rewrite !reverse_app. destruct (reverse away) as [|al ra] eqn:E.
    { apply (f_equal length) in E. by rewrite length_reverse in E. }
    apply lstrip_fixed_head in Hra. cbn [app lstrip]. by rewrite Hra.
Qed.

(** The evaluator gets back the two sides that the extractor joined:
    for two cells as [extract_teams_from_cells] takes them, normalized
    by [normspace], free of hyphens and en dashes, the first not
    starting with a digit, [clean_match_name] leaves the joined label as
    it is and [split_match] returns the two cells. *)
Theorem label_splits_back (h a : pystr) :
  let home := normspace h in
  let away := normspace a in
  home ≠ [] → away ≠ [] →
  Forall (λ c, is_dash c = false) home → Forall (λ c, is_dash c = false) away →
  (∀ c, head home = Some c → decimal c = None) →
  clean_match_name (home ++ py " – " ++ away) = home ++ py " – " ++ away ∧
  split_match (clean_match_name (home ++ py " – " ++ away)) = (home, away).
Proof.
  intros home away Hh Ha Hdh Hda Hdigit.
  assert (Hth : lstrip home = home ∧ lstrip (reverse home) = reverse home)
    by apply strip_trimmed.
  assert (Hta : lstrip away = away ∧ lstrip (reverse away) = reverse away)
    by apply strip_trimmed.
  destruct Hth as [Hlh Hrh], Hta as [Hla Hra].
  assert (Hsh : single_spaced false home = true).
  { unfold home, normspace. eapply single_spaced_strip, sub_runs_from_single_spaced. }
  assert (Hsa : single_spaced false away = true).
  { unfold away, normspace. eapply single_spaced_strip, sub_runs_from_single_spaced. }
  pose proof (normspace_plain h) as Hph. pose proof (normspace_plain a) as Hpa.
  fold home in Hph. fold away in Hpa.
  destruct (trimmed_last home Hh Hrh) as (home' & hl & Ehome & Hhl).
  destruct away as [|af away'] eqn:Eaway; [done|].
  pose proof (lstrip_fixed_head _ _ Hla) as Haf.
  clearbody home. subst home.
  pose proof (joined_label_fixed home' hl af away' Hph Hpa Hsh Hsa Hlh Hra Hhl Haf
                Hdh Hda Hdigit) as Hfixed.
  split; [done|]. rewrite Hfixed.
  change (py " – ") with [32%N; en_dash; 32%N].
  transitivity
    (split_match (((home' ++ [hl]) ++ [32%N]) ++ en_dash :: 32%N :: af :: away'));
    [f_equal; by rewrite <- !app_assoc|].
  rewrite split_match_two.
  - f_equal.
    + by apply strip_padded_right; [destruct home'|..].
    + by apply strip_padded_left.
  - apply Forall_app. split; [|by repeat constructor].
    eapply Forall_impl; [exact Hdh|]. by intros c [? ?]%is_dash_false.
  - constructor; [done|].
    eapply Forall_impl; [exact Hda|]. by intros c [? ?]%is_dash_false.
Qed.

End Sides.

(** The theorem at a name with a hyphen inside the home side. *)
Lemma split_match_en_dash_witness :
  split_match (py "Saint-Denis – Lyon") = (py "Saint-Denis", py "Lyon") ∧
  split_match (py "Saint-Denis – Lyon – 2:1") = (py "Saint-Denis", py "Lyon").
Proof.
  destruct (split_match_en_dash (py "Saint-Denis ") (py " Lyon")) as [H1 H2];
    [by repeat constructor..|].
  split; [exact H1|exact (H2 (py " 2:1"))].
Defined.

(** The theorem at names written with one hyphen, with two and with
    none. *)
Lemma split_match_hyphen_witness :
  split_match (py "Sparta - Slavia") = (py "Sparta", py "Slavia") ∧
  split_match (py "a-b-c") = (py "a", py "b") ∧
  split_match (py "Sparta ") = (py "Sparta", []).
Proof.
  destruct (split_match_hyphen (py "Sparta ") (py " Slavia")) as (H1 & _ & H3);
    [by repeat constructor..|].
  destruct (split_match_hyphen (py "a") (py "b")) as (_ & H2 & _);
    [by repeat constructor..|].
  split; [exact H1|]. split; [|exact H3].
  apply (H2 (py "c")). by repeat constructor.
Defined.

(** The theorem at two cells with spaces to tidy. *)
Lemma label_splits_back_witness :
  let home := normspace (py " Sparta  Praha") in
  let away := normspace (py "Slavia Praha ") in
  @clean_match_name ascii_only (home ++ py " – " ++ away)
  = py "Sparta Praha – Slavia Praha" ∧
  split_match (@clean_match_name ascii_only (home ++ py " – " ++ away))
  = (py "Sparta Praha", py "Slavia Praha").
Proof.
  intros home away.
  destruct (@label_splits_back ascii_only (py " Sparta  Praha") (py "Slavia Praha "))
    as [H1 H2].
  - done.
  - done.
  - vm_compute. by repeat constructor.
  - vm_compute. by repeat constructor.
  - intros c [= <-]. reflexivity.
  - split; [exact H1|exact H2].
Defined.

Section Verdicts.
Local Open Scope nat_scope.

(** ** A finished match without its away goals *)

Lemma str_int_head n rest : head (str_int n ++ ord ":" :: rest) ≠ Some (ord "N").
Proof.
  unfold str_int. destruct (Z.to_int n) as [u|u]; [|done]. by destruct u.
Qed.

(** A record that [status_done] takes for finished while its away
    goals are missing has the outcome "?": the ticket is marked wrong
    and counted as such, unless its tip is "?" itself. *)
Theorem finished_without_away_goals (m : ResultRecord) (tip : pystr) (t : Tally) :
  status_done m = true → get_away (fullTime_of m) = None →
  judge tip (Some m) t
  = if bool_decide (tip = py "?")
    then (Right, py "?", mkTally (S (ok t)) (bad t) (pend t))
    else (Wrong, py "?", mkTally (ok t) (S (bad t)) (pend t)).
Proof.
  intros Hdone Haway. unfold judge. rewrite Hdone.
  assert (Hout : decide_outcome_1x2 m = py "?").
  { unfold decide_outcome_1x2. rewrite Haway. by destruct (get_home _). }
  rewrite Hout. by repeat case_bool_decide.
Qed.

(** The score column shows "N/A" exactly for the records whose outcome
    is "?". *)
Theorem pretty_score_missing (m : ResultRecord) :
  pretty_score m = py "N/A" ↔ decide_outcome_1x2 m = py "?".
Proof.
  unfold pretty_score, decide_outcome_1x2.
  destruct (get_home (fullTime_of m)) as [hg|], (get_away (fullTime_of m)) as [ag|];
    try done.
  split.
  - intros H. destruct (str_int_head hg (str_int ag)).
    apply (f_equal head) in H. exact H.
  - by repeat case_match.
Qed.

(** The match column of the evaluation report is 44 characters wide for
    a name of at most 44 characters and 47 for a longer one: the cut
    name keeps 44 characters before its three dots, where [print_ticket]
    keeps 41 and stays within the 44. *)
Theorem report_match_column (match_ : pystr) :
  length (ljust 44 (match_disp match_)) = (if 44 <? length match_ then 47 else 44) ∧
  length (ljust 44 (shown_match match_)) = 44.
Proof.
  rewrite !ljust_length. pose proof (shown_match_length match_) as Hs.
  split; [|lia]. unfold match_disp. destruct (44 <? length match_) eqn:H.
  - apply Nat.ltb_lt in H. rewrite length_app, length_take.
    change (length (py "...")) with 3. lia.
  - apply Nat.ltb_ge in H. lia.
Qed.

End Verdicts.

(** The theorem at a record that is finished with the home goals only. *)
Lemma finished_without_away_goals_witness :
  let m := {| get_status := Some (py "FINISHED");
              get_homeTeam := None; get_awayTeam := None;
              get_score := Some {| get_fullTime :=
                Some {| get_home := Some 2%Z; get_away := None |} |} |} in
  judge (py "1") (Some m) (mkTally 0 0 0) = (Wrong, py "?", mkTally 0 1 0).
Proof.
  apply (finished_without_away_goals
           {| get_status := Some (py "FINISHED");
              get_homeTeam := None; get_awayTeam := None;
              get_score := Some {| get_fullTime :=
                Some {| get_home := Some 2%Z; get_away := None |} |} |}
           (py "1") (mkTally 0 0 0)); reflexivity.
Defined.

End EvaluateMore.
